(** * Weighted grid layout and CMButton: a shallow embedding

    The Go sources embedded here are the weighted grid layout of package
    [layout] and the [CMButton] widget of package [widget].  Go's [int] is
    modelled as [Z] with 64-bit wrap-around, [float32] and [float64] as
    IEEE 754 binary32 and binary64 values over [SpecFloat.spec_float], slices
    as lists, and a run-time panic as [None]. *)

From Stdlib Require Import ZArith List Bool Lia.
From Stdlib Require String.
From Stdlib Require Import Floats.SpecFloat.
Import ListNotations.

Local Open Scope Z_scope.

(** ** Go's [int] on a 64-bit target *)
Module GoInt.

Definition minInt : Z := - 2 ^ 63.
Definition maxInt : Z := 2 ^ 63 - 1.

Definition wrap (z : Z) : Z := (z + 2 ^ 63) mod 2 ^ 64 - 2 ^ 63.

Definition inRange (z : Z) : Prop := minInt <= z <= maxInt.

Definition add (a b : Z) : Z := wrap (a + b).
Definition sub (a b : Z) : Z := wrap (a - b).

(** [a % b]: the remainder of the division truncated toward zero; a zero
    divisor is a run-time panic. *)
Definition rem (a b : Z) : option Z :=
  if b =? 0 then None else Some (Z.rem a b).

End GoInt.

(** ** IEEE 754 binary32 and binary64 *)
Module Float.

Definition float32 := spec_float.
Definition float64 := spec_float.

Definition prec32 : Z := 24.
Definition emax32 : Z := 128.
Definition prec64 : Z := 53.
Definition emax64 : Z := 1024.

Definition zero : spec_float := S754_zero false.

(** [float32(n)] and [float64(n)] for an [int] [n]. *)
Definition f32_of_int (n : Z) : float32 := binary_normalize prec32 emax32 n 0 false.
Definition f64_of_int (n : Z) : float64 := binary_normalize prec64 emax64 n 0 false.

(** [float64(x)] for a [float32] [x] (exact) and [float32(x)] for a
    [float64] [x] (rounded to nearest, ties to even). *)
Definition f64_of_f32 (x : float32) : float64 :=
  match x with
  | S754_finite s m e => binary_round prec64 emax64 s m e
  | _ => x
  end.

Definition f32_of_f64 (x : float64) : float32 :=
  match x with
  | S754_finite s m e => binary_round prec32 emax32 s m e
  | _ => x
  end.

Definition add32 : float32 -> float32 -> float32 := SFadd prec32 emax32.
Definition sub32 : float32 -> float32 -> float32 := SFsub prec32 emax32.
Definition mul32 : float32 -> float32 -> float32 := SFmul prec32 emax32.
Definition div32 : float32 -> float32 -> float32 := SFdiv prec32 emax32.
Definition add64 : float64 -> float64 -> float64 := SFadd prec64 emax64.
Definition mul64 : float64 -> float64 -> float64 := SFmul prec64 emax64.
Definition div64 : float64 -> float64 -> float64 := SFdiv prec64 emax64.

(** [x > y] *)
Definition gtb (x y : spec_float) : bool := SFltb y x.

(** [math.Ceil]: the least integer value not below [x]; zeros, infinities
    and NaN are returned as they are. *)
Definition Ceil (x : float64) : float64 :=
  match x with
  | S754_finite s m e =>
      if 0 <=? e then x
      else
        let z := - ((- cond_Zopp s (Zpos m)) / 2 ^ (- e)) in
        if z =? 0 then S754_zero s else binary_normalize prec64 emax64 z 0 false
  | _ => x
  end.

(** [math.Round]: the nearest integer, halves away from zero. *)
Definition Round (x : float64) : float64 :=
  match x with
  | S754_finite s m e =>
      if 0 <=? e then x
      else
        let q := (2 * Zpos m + 2 ^ (- e)) / 2 ^ (- e + 1) in
        if q =? 0 then S754_zero s else binary_normalize prec64 emax64 (cond_Zopp s q) 0 false
  | _ => x
  end.

(** [int(x)] for a [float64] [x]: truncation toward zero.  Go leaves the
    result open when the value is not representable (NaN, infinities, out
    of range); [indef] is the value the target yields there. *)
Definition int_of_f64 (indef : Z) (x : float64) : Z :=
  match x with
  | S754_zero _ => 0
  | S754_finite s m e =>
      let z := cond_Zopp s (if 0 <=? e then Zpos m * 2 ^ e else Zpos m / 2 ^ (- e)) in
      if (GoInt.minInt <=? z) && (z <=? GoInt.maxInt) then z else indef
  | _ => indef
  end.

End Float.

Import Float.

(** ** The host toolkit, as the layout and the widget consume it *)
Module Fyne.

(** Modelled from the spec: the toolkit's [Size] and [Position] value
    types with component-wise maximum and addition, and [fyne.Max], which
    live in the toolkit's geometry and math files, not in the sources
    embedded here. *)
Record Size := NewSize { Width : float32; Height : float32 }.
Record Position := NewPos { X : float32; Y : float32 }.

Definition Max (x y : float32) : float32 := if gtb x y then x else y.

Definition Size_Max (s m : Size) : Size :=
  NewSize (Max (Width s) (Width m)) (Max (Height s) (Height m)).

Definition Size_Add (s v : Size) : Size :=
  NewSize (add32 (Width s) (Width v)) (add32 (Height s) (Height v)).

(** What a layout pass reads from the toolkit: the theme's unit padding
    ([theme.Padding()]), whether the current device is held horizontally
    ([fyne.IsHorizontal(fyne.CurrentDevice().Orientation())]), and the
    value the target gives to an unrepresentable float-to-int conversion. *)
Record Host := {
  Padding : float32;
  deviceHorizontal : bool;
  intIndefinite : Z
}.

End Fyne.

(** A [fyne.CanvasObject], seen through the four capabilities the layout
    uses: [Visible()], [MinSize()], [Move(pos)] and [Resize(size)]. *)
Module CanvasObject.
Import Fyne.

Record t := {
  Visible : bool;
  MinSize : Size;
  Position : Fyne.Position;
  Size : Fyne.Size
}.

Definition Move (o : t) (p : Fyne.Position) : t :=
  {| Visible := Visible o; MinSize := MinSize o; Position := p; Size := Size o |}.

Definition Resize (o : t) (s : Fyne.Size) : t :=
  {| Visible := Visible o; MinSize := MinSize o; Position := Position o; Size := s |}.

End CanvasObject.

(** The mutation calls a layout pass makes, by index of the child in the
    slice handed to the pass. *)
Inductive Call :=
| CallMove (idx : nat) (p : Fyne.Position)
| CallResize (idx : nat) (s : Fyne.Size).

Definition callTarget (c : Call) : nat :=
  match c with CallMove idx _ => idx | CallResize idx _ => idx end.

(** A panic aborts the computation. *)
Definition bind {A B : Type} (x : option A) (f : A -> option B) : option B :=
  match x with Some a => f a | None => None end.

Notation "x <- e ;; k" := (bind e (fun x => k))
  (at level 61, e at next level, right associativity).
Notation "' p <- e ;; k" := (bind e (fun p => k))
  (at level 61, p pattern, e at next level, right associativity).

(** ** The weighted grid layout *)
Module WeightedGrid.
Import Fyne.

Record weightedGridLayout := {
  Cols : list Z;
  TotalCols : Z;
  vertical : bool;
  adapt : bool
}.

Definition sum (cols : list Z) : Z :=
  fold_left (fun res col => GoInt.add res col) cols 0.

Definition NewAdaptiveWeightedGridLayout (rowcols : list Z) : weightedGridLayout :=
  {| Cols := rowcols; TotalCols := sum rowcols; vertical := false; adapt := true |}.

Definition NewWeightedGridLayoutWithColumns (cols : list Z) : weightedGridLayout :=
  {| Cols := cols; TotalCols := sum cols; vertical := false; adapt := false |}.

Definition NewWeightedGridLayout (cols : list Z) : weightedGridLayout :=
  NewWeightedGridLayoutWithColumns cols.

Definition NewWeightedGridLayoutWithRows (rows : list Z) : weightedGridLayout :=
  {| Cols := rows; TotalCols := sum rows; vertical := true; adapt := false |}.

(** The running cursor of [Layout]: [row], [col] and the flat unit index [i]. *)
Record cursor := { row : Z; col : Z; i : Z }.

Definition cursor0 : cursor := {| row := 0; col := 0; i := 0 |}.

Section WithHost.
Variable tk : Host.

Definition horizontal (g : weightedGridLayout) : bool :=
  if adapt g then deviceHorizontal tk else negb (vertical g).

(** The loop of [countRows], from child index [idx] on. *)
Fixpoint countLoop (g : weightedGridLayout) (idx : nat)
    (objects : list CanvasObject.t) (count : Z) : option Z :=
  match objects with
  | [] => Some count
  | child :: rest =>
      if CanvasObject.Visible child then
        w <- nth_error (Cols g) idx ;;
        countLoop g (S idx) rest (GoInt.add count w)
      else countLoop g (S idx) rest count
  end.

Definition countRows (g : weightedGridLayout) (objects : list CanvasObject.t) : option Z :=
  count <- countLoop g 0 objects 0 ;;
  Some (int_of_f64 (intIndefinite tk)
          (Ceil (div64 (f64_of_int count) (f64_of_int (TotalCols g))))).

(** Modelled from the spec: [getLeading] and [getTrailing], the edge
    helpers of the package's plain grid layout, which are not in the
    sources embedded here.  The leading edge of cell [offset] is
    [size * offset + padding * offset], rounded to a whole pixel; the
    trailing edge is the leading edge of the next cell less one padding. *)
Definition getLeading (size : float64) (offset : Z) : float32 :=
  f32_of_f64 (Round (mul64 (add64 size (f64_of_f32 (Padding tk))) (f64_of_int offset))).

Definition getTrailing (size : float64) (offset : Z) : float32 :=
  sub32 (getLeading size (GoInt.add offset 1)) (Padding tk).

(** The per-unit cell width and height [Layout] computes from the
    container size and the row count. *)
Definition cellSizes (g : weightedGridLayout) (rows : Z) (size : Size) : float64 * float64 :=
  let padWidth := mul32 (f32_of_int (GoInt.sub (TotalCols g) 1)) (Padding tk) in
  let padHeight := mul32 (f32_of_int (GoInt.sub rows 1)) (Padding tk) in
  let cellWidth := div64 (f64_of_f32 (sub32 (Width size) padWidth)) (f64_of_int (TotalCols g)) in
  let cellHeight := div64 (f64_of_f32 (sub32 (Height size) padHeight)) (f64_of_int rows) in
  if negb (horizontal g) then
    let '(padWidth, padHeight) := (padHeight, padWidth) in
    (div64 (f64_of_f32 (sub32 (Width size) padWidth)) (f64_of_int rows),
     div64 (f64_of_f32 (sub32 (Height size) padHeight)) (f64_of_int (TotalCols g)))
  else (cellWidth, cellHeight).

(** One pass of the body of [for span > 0]. *)
Definition advance1 (g : weightedGridLayout) (c : cursor) : option cursor :=
  r <- GoInt.rem (GoInt.add (i c) 1) (TotalCols g) ;;
  let '(row', col') :=
    if horizontal g then
      if r =? 0 then (GoInt.add (row c) 1, 0) else (row c, GoInt.add (col c) 1)
    else
      if r =? 0 then (0, GoInt.add (col c) 1) else (GoInt.add (row c) 1, col c) in
  Some {| row := row'; col := col'; i := GoInt.add (i c) 1 |}.

(** [for span > 0 { ...; i++; span-- }] runs its body [span] times. *)
Fixpoint advance (g : weightedGridLayout) (span : nat) (c : cursor) : option cursor :=
  match span with
  | O => Some c
  | S span' => c' <- advance1 g c ;; advance g span' c'
  end.

(** The body of the loop of [Layout] for the child at index [idx]: the
    child after the pass, the calls made on it and the cursor after it. *)
Definition layoutChild (g : weightedGridLayout) (cellWidth cellHeight : float64)
    (idx : nat) (child : CanvasObject.t) (c : cursor)
    : option (CanvasObject.t * list Call * cursor) :=
  if negb (CanvasObject.Visible child) then Some (child, [], c)
  else
    span <- nth_error (Cols g) idx ;;
    let '(colSpan, rowSpan) := if horizontal g then (span, 1) else (1, span) in
    let x1 := getLeading cellWidth (col c) in
    let y1 := getLeading cellHeight (row c) in
    let x2 := getTrailing cellWidth (GoInt.sub (GoInt.add (col c) colSpan) 1) in
    let y2 := getTrailing cellHeight (GoInt.sub (GoInt.add (row c) rowSpan) 1) in
    let pos := NewPos x1 y1 in
    let size := NewSize (sub32 x2 x1) (sub32 y2 y1) in
    let child' := CanvasObject.Resize (CanvasObject.Move child pos) size in
    c' <- advance g (Z.to_nat span) c ;;
    Some (child', [CallMove idx pos; CallResize idx size], c').

Fixpoint layoutLoop (g : weightedGridLayout) (cellWidth cellHeight : float64)
    (idx : nat) (objects : list CanvasObject.t) (c : cursor)
    : option (list CanvasObject.t * list Call * cursor) :=
  match objects with
  | [] => Some ([], [], c)
  | child :: rest =>
      '(child', calls, c') <- layoutChild g cellWidth cellHeight idx child c ;;
      '(rest', calls', c'') <- layoutLoop g cellWidth cellHeight (S idx) rest c' ;;
      Some (child' :: rest', calls ++ calls', c'')
  end.

(** [Layout]: the children after the pass and the calls made, in order
    ([fmt.Println] output is not modelled). *)
Definition Layout (g : weightedGridLayout) (objects : list CanvasObject.t) (size : Size)
    : option (list CanvasObject.t * list Call) :=
  rows <- countRows g objects ;;
  let '(cellWidth, cellHeight) := cellSizes g rows size in
  '(objects', calls, _) <- layoutLoop g cellWidth cellHeight 0 objects cursor0 ;;
  Some (objects', calls).

(** The loop of [MinSize], from child index [idx] on. *)
Fixpoint minSizeLoop (g : weightedGridLayout) (idx : nat)
    (objects : list CanvasObject.t) (minSize : Size) : option Size :=
  match objects with
  | [] => Some minSize
  | child :: rest =>
      if negb (CanvasObject.Visible child) then minSizeLoop g (S idx) rest minSize
      else
        w <- nth_error (Cols g) idx ;;
        let childMinSize := CanvasObject.MinSize child in
        let childMinSize :=
          NewSize (Width childMinSize) (div32 (Height childMinSize) (f32_of_int w)) in
        minSizeLoop g (S idx) rest (Size_Max minSize childMinSize)
  end.

Definition MinSize (g : weightedGridLayout) (objects : list CanvasObject.t) : option Size :=
  rows <- countRows g objects ;;
  minSize <- minSizeLoop g 0 objects (NewSize zero zero) ;;
  if horizontal g then
    let minContentSize :=
      NewSize (mul32 (Width minSize) (f32_of_int (TotalCols g)))
              (mul32 (Height minSize) (f32_of_int rows)) in
    Some (Size_Add minContentSize
            (NewSize (mul32 (Padding tk) (Max (f32_of_int (GoInt.sub (TotalCols g) 1)) zero))
                     (mul32 (Padding tk) (Max (f32_of_int (GoInt.sub rows 1)) zero))))
  else
    let minContentSize :=
      NewSize (mul32 (Width minSize) (f32_of_int rows))
              (mul32 (Height minSize) (f32_of_int (TotalCols g))) in
    Some (Size_Add minContentSize
            (NewSize (mul32 (Padding tk) (Max (f32_of_int (GoInt.sub rows 1)) zero))
                     (mul32 (Padding tk) (Max (f32_of_int (GoInt.sub (TotalCols g) 1)) zero)))).

End WithHost.

End WeightedGrid.

(** ** The CMButton widget *)
Module Widget.

(** Modelled from the spec: the importance variants (normal, high, low) of
    the toolkit's button, declared beside the toolkit's own button and not
    in the sources embedded here. *)
Inductive ButtonImportance := MediumImportance | HighImportance | LowImportance.

Definition importance_eqb (a b : ButtonImportance) : bool :=
  match a, b with
  | MediumImportance, MediumImportance => true
  | HighImportance, HighImportance => true
  | LowImportance, LowImportance => true
  | _, _ => false
  end.

Section WithColor.
(** [color.Color] and the toolkit's [blendColor] helper are taken as
    given. *)
Variable Color : Type.
Variable blendColor : Color -> Color -> Color.

(** The fields of [CMButton] the embedded methods read or write;
    [disabled] is the flag of the embedded [DisableableWidget], and
    [tapAnim] and [OnTapped] are recorded by whether they are nil; the
    icon, alignment and icon placement play no part in them. *)
Record CMButton := {
  disabled : bool;
  Text : String.string;
  Importance : ButtonImportance;
  ColorEnabled : Color;
  ColorDisabled : Color;
  ColorFocused : Color;
  ColorPrimary : Color;
  ColorHover : Color;
  hovered : bool;
  focused : bool;
  tapAnimSet : bool;
  OnTappedSet : bool
}.

Definition Disabled (b : CMButton) : bool := disabled b.

(** What a tap can do outside the button's own fields. *)
Inductive Effect := AnimStop | AnimStart | WidgetRefresh | CallOnTapped.

(** The button together with the effects performed so far, oldest first. *)
Record World := { button : CMButton; effects : list Effect }.

Definition emit (e : Effect) (w : World) : World :=
  {| button := button w; effects := effects w ++ [e] |}.

(** What the [OnTapped] closure does when it runs. *)
Variable onTapped : World -> World.

Definition tapAnimation (w : World) : World :=
  if negb (tapAnimSet (button w)) then w
  else emit AnimStart (emit AnimStop w).

Definition Refresh (w : World) : World := emit WidgetRefresh w.

Definition Tapped (w : World) : World :=
  if Disabled (button w) then w
  else
    let w := tapAnimation w in
    let w := Refresh w in
    if OnTappedSet (button w) then onTapped (emit CallOnTapped w) else w.

Definition buttonColor (b : CMButton) : Color :=
  if Disabled b then ColorDisabled b
  else if focused b then blendColor (ColorEnabled b) (ColorFocused b)
  else if hovered b then
    let bg := if importance_eqb (Importance b) HighImportance
              then ColorPrimary b else ColorEnabled b in
    blendColor bg (ColorHover b)
  else if importance_eqb (Importance b) HighImportance then ColorPrimary b
  else ColorEnabled b.

(** The five cases of the colour choice, each with the condition under
    which it is the one taken and the colour it gives. *)
Inductive ColorCase := CaseDisabled | CaseFocused | CaseHovered | CaseHigh | CaseDefault.

Definition applies (k : ColorCase) (b : CMButton) : Prop :=
  match k with
  | CaseDisabled => Disabled b = true
  | CaseFocused => Disabled b = false /\ focused b = true
  | CaseHovered => Disabled b = false /\ focused b = false /\ hovered b = true
  | CaseHigh =>
      Disabled b = false /\ focused b = false /\ hovered b = false /\
      Importance b = HighImportance
  | CaseDefault =>
      Disabled b = false /\ focused b = false /\ hovered b = false /\
      Importance b <> HighImportance
  end.

Definition caseColor (k : ColorCase) (b : CMButton) : Color :=
  match k with
  | CaseDisabled => ColorDisabled b
  | CaseFocused => blendColor (ColorEnabled b) (ColorFocused b)
  | CaseHovered =>
      match Importance b with
      | HighImportance => blendColor (ColorPrimary b) (ColorHover b)
      | _ => blendColor (ColorEnabled b) (ColorHover b)
      end
  | CaseHigh => ColorPrimary b
  | CaseDefault => ColorEnabled b
  end.

End WithColor.

Arguments disabled {Color} c.
Arguments Text {Color} c.
Arguments Importance {Color} c.
Arguments ColorEnabled {Color} c.
Arguments ColorDisabled {Color} c.
Arguments ColorFocused {Color} c.
Arguments ColorPrimary {Color} c.
Arguments ColorHover {Color} c.
Arguments hovered {Color} c.
Arguments focused {Color} c.
Arguments tapAnimSet {Color} c.
Arguments OnTappedSet {Color} c.
Arguments Disabled {Color} b.
Arguments button {Color} w.
Arguments effects {Color} w.
Arguments Build_World {Color} button effects.
Arguments emit {Color} e w.
Arguments tapAnimation {Color} w.
Arguments Refresh {Color} w.
Arguments Tapped {Color} onTapped w.
Arguments buttonColor {Color} blendColor b.
Arguments applies {Color} k b.
Arguments caseColor {Color} blendColor k b.

End Widget.

(** ** Notions the statements are written with *)
Module Spec.
Import Fyne WeightedGrid.

(** The sum of the weights of the visible children of [objects], the first
    of which has index [idx]; an invisible child counts for nothing. *)
Fixpoint visibleWeight (cols : list Z) (idx : nat) (objects : list CanvasObject.t) : Z :=
  match objects with
  | [] => 0
  | child :: rest =>
      (if CanvasObject.Visible child then nth idx cols 0 else 0)
      + visibleWeight cols (S idx) rest
  end.

(** The sum of all the weights, as an integer without bound. *)
Definition weightSum (cols : list Z) : Z := fold_right Z.add 0 cols.

(** A unit padding is a finite number that is not negative. *)
Definition isPadding (p : float32) : Prop :=
  p = S754_zero false \/ exists m e, p = S754_finite false m e.

(** Zeros and finite numbers, as opposed to infinities and NaN. *)
Definition isFinite (x : spec_float) : bool :=
  match x with
  | S754_zero _ | S754_finite _ _ _ => true
  | _ => false
  end.

(** [a / b] rounded up. *)
Definition ceilDiv (a b : Z) : Z := - ((- a) / b).

(** In horizontal mode the column is the flat index modulo the total
    weight and the row is the flat index divided by it. *)
Definition cursorInv (total : Z) (c : cursor) : Prop :=
  col c = i c mod total /\ row c = i c / total.

(** The child with its visibility turned off. *)
Definition hide (o : CanvasObject.t) : CanvasObject.t :=
  {| CanvasObject.Visible := false; CanvasObject.MinSize := CanvasObject.MinSize o;
     CanvasObject.Position := CanvasObject.Position o;
     CanvasObject.Size := CanvasObject.Size o |}.

Fixpoint hideAt (k : nat) (objects : list CanvasObject.t) : list CanvasObject.t :=
  match objects, k with
  | [], _ => []
  | o :: rest, O => hide o :: rest
  | o :: rest, S k' => o :: hideAt k' rest
  end.

Fixpoint removeAt {A : Type} (k : nat) (l : list A) : list A :=
  match l, k with
  | [], _ => []
  | _ :: rest, O => rest
  | x :: rest, S k' => x :: removeAt k' rest
  end.

(** The layout with the weight at index [k] left out and the total weight
    kept. *)
Definition withoutWeight (k : nat) (g : weightedGridLayout) : weightedGridLayout :=
  {| Cols := removeAt k (Cols g); TotalCols := TotalCols g;
     vertical := vertical g; adapt := adapt g |}.

(** What a run of the loop of [Layout] leaves behind, the calls set aside:
    the children and the cursor. *)
Definition placed (r : option (list CanvasObject.t * list Call * cursor))
    : option (list CanvasObject.t * cursor) :=
  option_map (fun x => (fst (fst x), snd x)) r.

Definition placed1 (r : option (CanvasObject.t * list Call * cursor))
    : option (CanvasObject.t * cursor) :=
  option_map (fun x => (fst (fst x), snd x)) r.

(** The visible children of [objects] with their weights, in order; a
    visible child without a weight is an index out of range. *)
Fixpoint visibleWithWeights (cols : list Z) (idx : nat) (objects : list CanvasObject.t)
    : option (list (CanvasObject.t * Z)) :=
  match objects with
  | [] => Some []
  | child :: rest =>
      if CanvasObject.Visible child then
        w <- nth_error cols idx ;;
        vs <- visibleWithWeights cols (S idx) rest ;;
        Some ((child, w) :: vs)
      else visibleWithWeights cols (S idx) rest
  end.

(** The per-unit minimum of a child of weight [w]: its height divided by
    [w], whatever the orientation. *)
Definition perUnitHeight (m : Size) (w : Z) : Size :=
  NewSize (Width m) (div32 (Height m) (f32_of_int w)).

(** The per-unit minimum with the divided dimension following the
    orientation: the height in horizontal mode, the width in vertical mode. *)
Definition perUnitByOrientation (horiz : bool) (m : Size) (w : Z) : Size :=
  if horiz then NewSize (Width m) (div32 (Height m) (f32_of_int w))
  else NewSize (div32 (Width m) (f32_of_int w)) (Height m).

(** The minimum size in closed form, for a given per-unit rule: the
    per-axis maximum of the per-unit minima of the visible children, the
    width times the total weight and the height times the row count
    (transposed in vertical mode), plus padding times [max (count - 1) 0]
    on each axis. *)
Definition minSizeBy (perUnit : Size -> Z -> Size) (tk : Host)
    (g : weightedGridLayout) (objects : list CanvasObject.t) : option Size :=
  rows <- countRows tk g objects ;;
  vs <- visibleWithWeights (Cols g) 0 objects ;;
  let unit :=
    fold_left Size_Max
      (map (fun v => perUnit (CanvasObject.MinSize (fst v)) (snd v)) vs)
      (NewSize zero zero) in
  let alongTotal (u : float32) :=
    add32 (mul32 u (f32_of_int (TotalCols g)))
          (mul32 (Padding tk) (Max (f32_of_int (GoInt.sub (TotalCols g) 1)) zero)) in
  let alongRows (u : float32) :=
    add32 (mul32 u (f32_of_int rows))
          (mul32 (Padding tk) (Max (f32_of_int (GoInt.sub rows 1)) zero)) in
  Some (if horizontal tk g
        then NewSize (alongTotal (Width unit)) (alongRows (Height unit))
        else NewSize (alongRows (Width unit)) (alongTotal (Height unit))).

End Spec.

Import Fyne WeightedGrid Spec.

(** ** Inputs of the scenarios *)

Definition size_of_ints (w h : Z) : Size := NewSize (f32_of_int w) (f32_of_int h).

Definition pos_of_ints (x y : Z) : Fyne.Position := NewPos (f32_of_int x) (f32_of_int y).

(** A child after [Move] to [(x, y)] and [Resize] to [(w, h)]. *)
Definition placeAt (o : CanvasObject.t) (x y w h : Z) : CanvasObject.t :=
  CanvasObject.Resize (CanvasObject.Move o (pos_of_ints x y)) (size_of_ints w h).

Definition plainObject (v : bool) : CanvasObject.t :=
  {| CanvasObject.Visible := v; CanvasObject.MinSize := NewSize zero zero;
     CanvasObject.Position := NewPos zero zero; CanvasObject.Size := NewSize zero zero |}.

Definition hostWithPadding (p : Z) : Host :=
  {| Padding := f32_of_int p; deviceHorizontal := true; intIndefinite := GoInt.minInt |}.

Ltac visible_child o H :=
  destruct o as [[|] ? ? ?]; cbn in H; try discriminate H; clear H.

(** ** Notions for the rounding lemmas *)
Module Rounding.

(** [k] one-bit right shifts with the round and sticky bits kept. *)
Definition shr_nat (k : nat) (r : shr_record) : shr_record := Nat.iter k shr_1 r.

(** A rounded mantissa of [prec] digits, or the next power of two, made
    into a positive float. *)
Definition finish (prec m2 e : Z) : spec_float :=
  if m2 <? 2 ^ prec then S754_finite false (Z.to_pos m2) e
  else S754_finite false (Z.to_pos (2 ^ (prec - 1))) (e + 1).

(** The mantissa the conversion of a positive integer [z] to a float of
    precision [prec] rounds to, before a carry into the next binade is
    settled: [z] shifted left when it has fewer than [prec] digits, the
    quotient by [2^n] rounded to nearest, ties to even, when it has [n]
    more. *)
Definition int_mant (prec z : Z) : Z :=
  let n := Zdigits2 z - prec in
  if n <=? 0 then z * 2 ^ (- n)
  else round_nearest_even (z / 2 ^ n) (new_location_even (2 ^ n) (z mod 2 ^ n)).

(** Two positive finite floats with mantissas of full precision, compared
    by value. *)
Definition pos_le (x y : spec_float) : Prop :=
  match x, y with
  | S754_finite false mx ex, S754_finite false my ey =>
      ex < ey \/ (ex = ey /\ Zpos mx <= Zpos my)
  | _, _ => False
  end.

End Rounding.

Import Rounding.

(** ** Notions for whole layout passes *)
Module Pass.
Import Fyne WeightedGrid.

(** The corner [Layout] moves a visible child to when the cursor is [c]. *)
Definition cellPos (tk : Host) (cellWidth cellHeight : float64) (c : cursor) : Position :=
  NewPos (getLeading tk cellWidth (col c)) (getLeading tk cellHeight (row c)).

(** The size [Layout] gives a visible child of weight [span] when the cursor
    is [c]: [span] units along the wrapping axis, one along the other. *)
Definition cellSize (tk : Host) (g : weightedGridLayout) (cellWidth cellHeight : float64)
    (span : Z) (c : cursor) : Size :=
  let '(colSpan, rowSpan) := if horizontal tk g then (span, 1) else (1, span) in
  NewSize
    (sub32 (getTrailing tk cellWidth (GoInt.sub (GoInt.add (col c) colSpan) 1))
           (getLeading tk cellWidth (col c)))
    (sub32 (getTrailing tk cellHeight (GoInt.sub (GoInt.add (row c) rowSpan) 1))
           (getLeading tk cellHeight (row c))).

(** What a pass decides for one child: nothing for an invisible one, a
    position and a size for a visible one. *)
Definition placement : Type := option (Position * Size).

Definition applyPlacement (o : CanvasObject.t) (p : placement) : CanvasObject.t :=
  match p with
  | None => o
  | Some (pos, size) => CanvasObject.Resize (CanvasObject.Move o pos) size
  end.

Fixpoint applyPlan (objects : list CanvasObject.t) (plan : list placement)
    : list CanvasObject.t :=
  match objects, plan with
  | o :: rest, p :: plan' => applyPlacement o p :: applyPlan rest plan'
  | _, _ => []
  end.

Fixpoint planCalls (idx : nat) (plan : list placement) : list Call :=
  match plan with
  | [] => []
  | None :: plan' => planCalls (S idx) plan'
  | Some (pos, size) :: plan' =>
      CallMove idx pos :: CallResize idx size :: planCalls (S idx) plan'
  end.

(** A plan whose entries are present exactly for the visible children. *)
Definition fits (objects : list CanvasObject.t) (plan : list placement) : Prop :=
  map (fun p : placement => match p with Some _ => true | None => false end) plan
  = map CanvasObject.Visible objects.

(** The loop of [Layout] run on the visibility flags alone. *)
Fixpoint layoutPlan (tk : Host) (g : weightedGridLayout) (cellWidth cellHeight : float64)
    (idx : nat) (visible : list bool) (c : cursor) : option (list placement * cursor) :=
  match visible with
  | [] => Some ([], c)
  | false :: rest =>
      '(plan, c') <- layoutPlan tk g cellWidth cellHeight (S idx) rest c ;;
      Some (None :: plan, c')
  | true :: rest =>
      span <- nth_error (Cols g) idx ;;
      c1 <- advance tk g (Z.to_nat span) c ;;
      '(plan, c') <- layoutPlan tk g cellWidth cellHeight (S idx) rest c1 ;;
      Some (Some (cellPos tk cellWidth cellHeight c,
                  cellSize tk g cellWidth cellHeight span c) :: plan, c')
  end.

(** The calls a pass has made, read off the children it left: a [Move] and
    then a [Resize] for each visible child, in the order of the children. *)
Fixpoint callsOf (idx : nat) (objects : list CanvasObject.t) : list Call :=
  match objects with
  | [] => []
  | o :: rest =>
      (if CanvasObject.Visible o
       then [CallMove idx (CanvasObject.Position o); CallResize idx (CanvasObject.Size o)]
       else [])
      ++ callsOf (S idx) rest
  end.

Definition visibleCount (objects : list CanvasObject.t) : nat :=
  length (filter CanvasObject.Visible objects).

(** Every visible child has a weight. *)
Definition weighted (g : weightedGridLayout) (objects : list CanvasObject.t) : Prop :=
  forall idx child,
    nth_error objects idx = Some child ->
    CanvasObject.Visible child = true ->
    (idx < length (Cols g))%nat.

(** Width and height, x and y exchanged. *)
Definition swapSize (s : Size) : Size := NewSize (Height s) (Width s).
Definition swapPos (p : Position) : Position := NewPos (Y p) (X p).

Definition swapCursor (c : cursor) : cursor := {| row := col c; col := row c; i := i c |}.

Definition transposeVisible (o : CanvasObject.t) : CanvasObject.t :=
  if CanvasObject.Visible o
  then {| CanvasObject.Visible := true; CanvasObject.MinSize := CanvasObject.MinSize o;
          CanvasObject.Position := swapPos (CanvasObject.Position o);
          CanvasObject.Size := swapSize (CanvasObject.Size o) |}
  else o.

Definition transposeCall (c : Call) : Call :=
  match c with
  | CallMove idx p => CallMove idx (swapPos p)
  | CallResize idx s => CallResize idx (swapSize s)
  end.

(** In vertical mode the roles of the row and the column are exchanged. *)
Definition cursorInvVertical (total : Z) (c : cursor) : Prop :=
  row c = i c mod total /\ col c = i c / total.

End Pass.

Import Pass.


(** ** Notions for the faults of a pass *)
Module Faults.
Import Fyne WeightedGrid.

(** No visible child has a positive weight: the advance loop never runs. *)
Definition noPositiveWeight (g : weightedGridLayout) (objects : list CanvasObject.t) : Prop :=
  forall idx child w,
    nth_error objects idx = Some child ->
    CanvasObject.Visible child = true ->
    nth_error (Cols g) idx = Some w ->
    w <= 0.

(** The same, for the children from index [k] on. *)
Definition weightedFrom (g : weightedGridLayout) (k : nat) (objects : list CanvasObject.t)
    : Prop :=
  forall j child,
    nth_error objects j = Some child ->
    CanvasObject.Visible child = true ->
    (k + j < length (Cols g))%nat.

Definition layoutableFrom (g : weightedGridLayout) (k : nat) (objects : list CanvasObject.t)
    : Prop :=
  forall j child,
    nth_error objects j = Some child ->
    CanvasObject.Visible child = true ->
    exists w, nth_error (Cols g) (k + j) = Some w /\ (TotalCols g <> 0 \/ w <= 0).

End Faults.

Import Faults.


(** ** Notions for the two orientations *)
Module Orientation.
Import Fyne WeightedGrid.

(** The same weights and total weight, laid out in columns. *)
Definition asColumns (g : weightedGridLayout) : weightedGridLayout :=
  {| Cols := Cols g; TotalCols := TotalCols g; vertical := false; adapt := false |}.

(** The outcome of the loop of [Layout] with x and y exchanged: the visible
    children, the calls and the cursor. *)
Definition transposeLoop (r : list CanvasObject.t * list Call * cursor)
    : list CanvasObject.t * list Call * cursor :=
  (map transposeVisible (fst (fst r)), map transposeCall (snd (fst r)), swapCursor (snd r)).

Definition transposePass (r : list CanvasObject.t * list Call)
    : list CanvasObject.t * list Call :=
  (map transposeVisible (fst r), map transposeCall (snd r)).

End Orientation.

Import Orientation.


(** ** The event handlers of CMButton *)
Module Events.
Import Widget.

Section WithColor.
Variable Color : Type.

Definition withFocused (v : bool) (b : CMButton Color) : CMButton Color :=
  {| disabled := disabled b; Text := Text b; Importance := Importance b;
     ColorEnabled := ColorEnabled b; ColorDisabled := ColorDisabled b;
     ColorFocused := ColorFocused b; ColorPrimary := ColorPrimary b;
     ColorHover := ColorHover b; hovered := hovered b; focused := v;
     tapAnimSet := tapAnimSet b; OnTappedSet := OnTappedSet b |}.

Definition withHovered (v : bool) (b : CMButton Color) : CMButton Color :=
  {| disabled := disabled b; Text := Text b; Importance := Importance b;
     ColorEnabled := ColorEnabled b; ColorDisabled := ColorDisabled b;
     ColorFocused := ColorFocused b; ColorPrimary := ColorPrimary b;
     ColorHover := ColorHover b; hovered := v; focused := focused b;
     tapAnimSet := tapAnimSet b; OnTappedSet := OnTappedSet b |}.

Definition withText (text : String.string) (b : CMButton Color) : CMButton Color :=
  {| disabled := disabled b; Text := text; Importance := Importance b;
     ColorEnabled := ColorEnabled b; ColorDisabled := ColorDisabled b;
     ColorFocused := ColorFocused b; ColorPrimary := ColorPrimary b;
     ColorHover := ColorHover b; hovered := hovered b; focused := focused b;
     tapAnimSet := tapAnimSet b; OnTappedSet := OnTappedSet b |}.

Definition onButton (f : CMButton Color -> CMButton Color) (w : World Color) : World Color :=
  {| button := f (button w); effects := effects w |}.

Definition FocusGained (w : World Color) : World Color :=
  Refresh (onButton (withFocused true) w).

Definition FocusLost (w : World Color) : World Color :=
  Refresh (onButton (withFocused false) w).

Definition MouseIn (w : World Color) : World Color :=
  Refresh (onButton (withHovered true) w).

Definition MouseMoved (w : World Color) : World Color := w.

Definition MouseOut (w : World Color) : World Color :=
  Refresh (onButton (withHovered false) w).

Definition SetText (text : String.string) (w : World Color) : World Color :=
  Refresh (onButton (withText text) w).

Definition TypedRune (w : World Color) : World Color := w.

(** [fyne.KeySpace], the toolkit's name of the space key, is taken as
    given. *)
Variable KeySpace : String.string.
Variable onTapped : World Color -> World Color.

Definition TypedKey (name : String.string) (w : World Color) : World Color :=
  if String.eqb name KeySpace then Tapped onTapped w else w.

(** The handlers that run no closure, as events. *)
Inductive Event :=
| EvFocusGained | EvFocusLost | EvMouseIn | EvMouseMoved | EvMouseOut
| EvTypedRune | EvSetText (text : String.string).

Definition handle (e : Event) (w : World Color) : World Color :=
  match e with
  | EvFocusGained => FocusGained w
  | EvFocusLost => FocusLost w
  | EvMouseIn => MouseIn w
  | EvMouseMoved => MouseMoved w
  | EvMouseOut => MouseOut w
  | EvTypedRune => TypedRune w
  | EvSetText text => SetText text w
  end.

Definition run (events : list Event) (w : World Color) : World Color :=
  fold_left (fun w e => handle e w) events w.

Definition refreshes (e : Event) : bool :=
  match e with
  | EvMouseMoved | EvTypedRune => false
  | _ => true
  end.

Definition isFocusLost (e : Event) : bool :=
  match e with EvFocusLost => true | _ => false end.

End WithColor.

Arguments FocusGained {Color} w.
Arguments FocusLost {Color} w.
Arguments MouseIn {Color} w.
Arguments MouseMoved {Color} w.
Arguments MouseOut {Color} w.
Arguments SetText {Color} text w.
Arguments TypedRune {Color} w.
Arguments TypedKey {Color} KeySpace onTapped name w.
Arguments handle {Color} e w.
Arguments run {Color} events w.

End Events.


(** A button for the examples, with numbers for colours. *)
Definition sampleButton (d f h : bool) : Widget.CMButton nat :=
  {| Widget.disabled := d; Widget.Text := String.EmptyString;
     Widget.Importance := Widget.HighImportance;
     Widget.ColorEnabled := 1%nat; Widget.ColorDisabled := 2%nat;
     Widget.ColorFocused := 3%nat; Widget.ColorPrimary := 4%nat;
     Widget.ColorHover := 5%nat; Widget.hovered := h; Widget.focused := f;
     Widget.tapAnimSet := true; Widget.OnTappedSet := true |}.

(** * Properties *)

Example f32_of_int_100 : f32_of_int 100 = S754_finite false 13107200 (-17).
Proof. reflexivity. Qed.

Example ceil_of_quotient : int_of_f64 0 (Ceil (div64 (f64_of_int 5) (f64_of_int 4))) = 2.
Proof. vm_compute. reflexivity. Qed.

Example round_half_away : Round (div64 (f64_of_int (-5)) (f64_of_int 2)) = f64_of_int (-3).
Proof. vm_compute. reflexivity. Qed.


(** ** Rounding to nearest in [SpecFloat]

    What the conversions from [int] and the division do on the values the
    layout feeds them, derived from the definitions of [SpecFloat]. *)

Lemma digits2_pos_size (p : positive) : digits2_pos p = Pos.size p.
Proof. induction p; cbn; congruence. Qed.

Lemma Zdigits2_bounds (z : Z) :
  0 < z -> 2 ^ (Zdigits2 z - 1) <= z < 2 ^ Zdigits2 z.
Proof.
  destruct z as [|p|p]; try lia. intros _. cbn [Zdigits2].
  rewrite digits2_pos_size.
  pose proof (Pos.size_gt p) as Hgt. pose proof (Pos.size_le p) as Hle.
  assert (H1 : Zpos p < 2 ^ Zpos (Pos.size p)).
  { change 2 with (Zpos 2). rewrite <- Pos2Z.inj_pow. lia. }
  assert (H2 : 2 ^ Zpos (Pos.size p) <= 2 * Zpos p).
  { change 2 with (Zpos 2) at 1. rewrite <- Pos2Z.inj_pow. lia. }
  split; [|exact H1].
  replace (Zpos (Pos.size p)) with (Zpos (Pos.size p) - 1 + 1) in H2 by lia.
  rewrite Z.pow_add_r in H2 by lia. lia.
Qed.

Lemma Zdigits2_pos (z : Z) : 0 < z -> 0 < Zdigits2 z.
Proof. destruct z; cbn; lia. Qed.

Lemma Zdigits2_unique (z k : Z) :
  2 ^ (k - 1) <= z < 2 ^ k -> 0 < z -> Zdigits2 z = k.
Proof.
  intros [Hl Hu] Hz.
  pose proof (Zdigits2_bounds z Hz) as [Dl Du].
  pose proof (Zdigits2_pos z Hz) as Dp.
  destruct (Z.lt_trichotomy (Zdigits2 z) k) as [H|[H|H]]; [exfalso| exact H | exfalso].
  - assert (2 ^ Zdigits2 z <= 2 ^ (k - 1)) by (apply Z.pow_le_mono_r; lia). lia.
  - destruct (Z.le_gt_cases 0 k) as [Hk|Hk].
    + assert (2 ^ k <= 2 ^ (Zdigits2 z - 1)) by (apply Z.pow_le_mono_r; lia). lia.
    + rewrite (Z.pow_neg_r 2 k) in Hu by lia. lia.
Qed.

Lemma iter_pos_nat {A : Type} (f : A -> A) (p : positive) : forall x,
  iter_pos f p x = Nat.iter (Pos.to_nat p) f x.
Proof.
  induction p as [p IH|p IH|]; intros x; cbn [iter_pos].
  - rewrite !IH, Pos2Nat.inj_xI.
    replace (S (2 * Pos.to_nat p)) with (Pos.to_nat p + (Pos.to_nat p + 1))%nat by lia.
    rewrite !Nat.iter_add. reflexivity.
  - rewrite !IH, Pos2Nat.inj_xO.
    replace (2 * Pos.to_nat p)%nat with (Pos.to_nat p + Pos.to_nat p)%nat by lia.
    rewrite Nat.iter_add. reflexivity.
  - reflexivity.
Qed.

Lemma shr_1_spec (r : shr_record) :
  0 <= shr_m r ->
  shr_m (shr_1 r) = shr_m r / 2 /\
  shr_r (shr_1 r) = Z.odd (shr_m r) /\
  shr_s (shr_1 r) = shr_r r || shr_s r.
Proof.
  destruct r as [m r s]; cbn [shr_m shr_r shr_s]. intros Hm.
  destruct m as [|[p|p|]|p]; try lia; cbn [shr_1 shr_m shr_r shr_s].
  - auto.
  - repeat split. rewrite Pos2Z.inj_xI. apply (Z.div_unique _ _ _ 1); lia.
  - repeat split. rewrite Pos2Z.inj_xO. apply (Z.div_unique _ _ _ 0); lia.
  - auto.
Qed.


(** After [k] one-bit shifts of [z], the mantissa is the quotient by [2^k] and the round and sticky bits place the remainder against the half. *)
Lemma shr_nat_spec (z : Z) (k : nat) :
  0 <= z ->
  let r := shr_nat k (Build_shr_record z false false) in
  shr_m r = z / 2 ^ Z.of_nat k /\
  loc_of_shr_record r = new_location_even (2 ^ Z.of_nat k) (z mod 2 ^ Z.of_nat k).
Proof.
  intros Hz. induction k as [|k IH].
  - cbn. rewrite Z.div_1_r, Z.mod_1_r. auto.
  - cbn zeta in *. unfold shr_nat in *. rewrite Nat.iter_succ.
    set (r := Nat.iter k shr_1 _) in *.
    destruct IH as [IHm IHl].
    assert (Hm0 : 0 <= shr_m r) by (rewrite IHm; apply Z.div_pos; lia).
    destruct (shr_1_spec r Hm0) as (Em & Er & Es).
    rewrite Nat2Z.inj_succ, Z.pow_succ_r by lia.
    set (P := 2 ^ Z.of_nat k) in *.
    assert (HP : 0 < P) by (apply Z.pow_pos_nonneg; lia).
    split.
    + rewrite Em, IHm, Z.div_div by lia. f_equal. lia.
    + pose proof (Z.mod_pos_bound z P HP) as Hb.
      pose proof (Z.div_mod z P ltac:(lia)) as Hdm.
      pose proof (Z.div_mod (z / P) 2 ltac:(lia)) as Hdm2.
      pose proof (Z.mod_pos_bound (z / P) 2 ltac:(lia)) as Hb2.
      assert (Hrem : z mod (2 * P) = z mod P + P * ((z / P) mod 2)).
      { symmetry. apply (Z.mod_unique _ _ (z / P / 2)); nia. }
      assert (Hodd : Z.odd (shr_m r) = negb ((z / P) mod 2 =? 0)).
      { rewrite IHm, Zmod_odd. destruct (Z.odd (z / P)); reflexivity. }
      assert (Hrs : shr_r r || shr_s r = negb (z mod P =? 0)).
      { revert IHl. unfold new_location_even.
        destruct (Z.eqb_spec (z mod P) 0); destruct r as [m [|] [|]]; cbn; try discriminate; auto. }
      destruct (shr_1 r) as [m' r' s']. cbn [shr_m shr_r shr_s] in *. subst r' s'.
      rewrite Hodd, Hrs, Hrem. unfold new_location_even.
      destruct (Z.eqb_spec ((z / P) mod 2) 0) as [E2|E2];
        [rewrite E2, Z.mul_0_r, Z.add_0_r
        |replace ((z / P) mod 2) with 1 by lia; rewrite Z.mul_1_r];
        destruct (Z.eqb_spec (z mod P) 0) as [E1|E1]; cbn [loc_of_shr_record negb].
      * reflexivity.
      * f_equal. symmetry. apply Z.compare_lt_iff. lia.
      * destruct (Z.eqb_spec (z mod P + P) 0); [lia|].
        f_equal. symmetry. apply Z.compare_eq_iff. lia.
      * destruct (Z.eqb_spec (z mod P + P) 0); [lia|].
        f_equal. symmetry. apply Z.compare_gt_iff. lia.
Qed.

Lemma shr_nat_m (k : nat) : forall r,
  0 <= shr_m r -> shr_m (shr_nat k r) = shr_m r / 2 ^ Z.of_nat k.
Proof.
  induction k as [|k IH]; intros r Hr.
  - cbn. rewrite Z.div_1_r. reflexivity.
  - unfold shr_nat in *. rewrite Nat.iter_succ.
    assert (H0 : 0 <= shr_m (Nat.iter k shr_1 r)) by (rewrite IH by lia; apply Z.div_pos; lia).
    destruct (shr_1_spec _ H0) as (-> & _). rewrite IH by lia.
    rewrite Nat2Z.inj_succ, Z.pow_succ_r, Z.div_div by lia. f_equal. lia.
Qed.

Lemma shr_pos (r : shr_record) (e n : Z) :
  0 < n -> shr r e n = (shr_nat (Z.to_nat n) r, e + n).
Proof.
  destruct n as [|p|p]; try lia. intros _. cbn [shr].
  rewrite iter_pos_nat. reflexivity.
Qed.

Lemma shr_m_shr (r : shr_record) (e n : Z) :
  0 <= shr_m r -> 0 <= n ->
  shr_m (fst (shr r e n)) = shr_m r / 2 ^ n /\ snd (shr r e n) = e + n.
Proof.
  intros Hr Hn. destruct (Z.eq_dec n 0) as [->|Hn0].
  - cbn. rewrite Z.div_1_r. split; [reflexivity|lia].
  - rewrite shr_pos by lia. cbn [fst snd]. rewrite shr_nat_m by lia.
    rewrite Z2Nat.id by lia. auto.
Qed.

Lemma shr_m_of_loc (m : Z) (l : location) : shr_m (shr_record_of_loc m l) = m.
Proof. destruct l as [|[| |]]; reflexivity. Qed.

Lemma round_nearest_even_range (m : Z) (l : location) :
  m <= round_nearest_even m l <= m + 1.
Proof.
  unfold round_nearest_even. destruct l as [|[| |]]; try lia.
  destruct (Z.even m); lia.
Qed.

Section RoundingFacts.
Variables prec emax : Z.
Hypothesis Hprec : 1 < prec.
Hypothesis Hemax : prec < emax.


Lemma finish_exact (m e : Z) :
  2 ^ (prec - 1) <= m <= 2 ^ prec ->
  emin prec emax <= e -> e + 1 <= emax - prec ->
  binary_round_aux prec emax false m e loc_Exact = finish prec m e.
Proof.
  intros Hm He1 He2.
  assert (Hp1 : 0 < 2 ^ (prec - 1)) by (apply Z.pow_pos_nonneg; lia).
  assert (Hpp : 2 ^ prec = 2 * 2 ^ (prec - 1)).
  { rewrite <- Z.pow_succ_r by lia. f_equal. lia. }
  unfold finish, binary_round_aux, shr_fexp.
  destruct (Z.ltb_spec m (2 ^ prec)) as [Hlt|Hge].
  - assert (Hd : Zdigits2 m = prec) by (apply Zdigits2_unique; lia).
    rewrite Hd. unfold fexp.
    replace (Z.max (prec + e - prec) (emin prec emax) - e) with 0 by lia.
    cbn [shr shr_record_of_loc shr_m loc_of_shr_record round_nearest_even].
    rewrite Hd.
    replace (Z.max (prec + e - prec) (emin prec emax) - e) with 0 by lia.
    cbn [shr shr_record_of_loc shr_m].
    destruct m as [|p|p]; try lia. cbn [Z.to_pos].
    destruct (Z.leb_spec e (emax - prec)); [reflexivity|lia].
  - assert (Hm' : m = 2 ^ prec) by lia.
    assert (Hd : Zdigits2 m = prec + 1).
    { apply Zdigits2_unique; [|lia]. replace (prec + 1 - 1) with prec by lia.
      rewrite Z.pow_add_r, Z.pow_1_r by lia. lia. }
    rewrite Hd. unfold fexp.
    replace (Z.max (prec + 1 + e - prec) (emin prec emax) - e) with 1 by lia.
    cbn [shr shr_record_of_loc iter_pos].
    destruct (shr_1_spec (Build_shr_record m false false)) as (E1 & E2 & E3);
      [cbn; lia|]. cbn [shr_m shr_r shr_s] in E1, E2, E3.
    assert (Hodd : Z.odd m = false).
    { rewrite Hm', Hpp, Z.odd_mul. reflexivity. }
    destruct (shr_1 (Build_shr_record m false false)) as [m1 r1 s1].
    cbn [shr_m shr_r shr_s] in *. rewrite Hodd in E2. cbn in E3. subst r1 s1.
    cbn [loc_of_shr_record round_nearest_even shr_m].
    assert (Hm1 : m1 = 2 ^ (prec - 1)).
    { rewrite E1, Hm', Hpp. rewrite Z.mul_comm, Z.div_mul by lia. reflexivity. }
    assert (Hd1 : Zdigits2 m1 = prec) by (apply Zdigits2_unique; lia).
    rewrite Hd1.
    replace (Z.max (prec + (e + 1) - prec) (emin prec emax) - (e + 1)) with 0 by lia.
    cbn [shr shr_m]. rewrite <- Hm1.
    destruct m1 as [|p|p]; try lia. cbn [Z.to_pos].
    destruct (Z.leb_spec (e + 1) (emax - prec)); [reflexivity|lia].
Qed.

Lemma binary_round_aux_normal (m e : Z) (l : location) :
  0 < m ->
  let n := Zdigits2 m - prec in
  0 <= n -> emin prec emax <= e + n -> e + n + 1 <= emax - prec ->
  let mrs := fst (shr (shr_record_of_loc m l) e n) in
  binary_round_aux prec emax false m e l
  = finish prec (round_nearest_even (shr_m mrs) (loc_of_shr_record mrs)) (e + n) /\
  shr_m mrs = m / 2 ^ n /\
  2 ^ (prec - 1) <= m / 2 ^ n < 2 ^ prec.
Proof.
  intros Hm n Hn He1 He2 mrs.
  destruct (shr_m_shr (shr_record_of_loc m l) e n) as [Hsm Hse];
    [rewrite shr_m_of_loc; lia|lia|]. rewrite shr_m_of_loc in Hsm. fold mrs in Hsm.
  pose proof (Zdigits2_bounds m Hm) as [Dl Du].
  assert (Hd : Zdigits2 m = n + prec) by (unfold n; lia).
  assert (Hn2 : 0 < 2 ^ n) by (apply Z.pow_pos_nonneg; lia).
  assert (Hb : 2 ^ (prec - 1) <= m / 2 ^ n < 2 ^ prec).
  { rewrite Hd in Dl, Du.
    replace (n + prec - 1) with (n + (prec - 1)) in Dl by lia.
    rewrite Z.pow_add_r in Dl, Du by lia. split.
    - apply Z.div_le_lower_bound; lia.
    - apply Z.div_lt_upper_bound; lia. }
  split; [|split; assumption].
  pose proof (round_nearest_even_range (shr_m mrs) (loc_of_shr_record mrs)) as Hr.
  rewrite <- (finish_exact _ (e + n)) by lia.
  unfold binary_round_aux at 1. unfold shr_fexp at 1.
  replace (fexp prec emax (Zdigits2 m + e) - e) with n by (unfold fexp; lia).
  rewrite (surjective_pairing (shr (shr_record_of_loc m l) e n)).
  fold mrs. rewrite Hse.
  unfold binary_round_aux.
  set (m2 := round_nearest_even (shr_m mrs) (loc_of_shr_record mrs)) in *.
  (* the right-hand side rounds the already rounded mantissa once more *)
  assert (Hm2 : 2 ^ (prec - 1) <= m2 <= 2 ^ prec) by lia.
  assert (Hp1 : 0 < 2 ^ (prec - 1)) by (apply Z.pow_pos_nonneg; lia).
  assert (Hpp : 2 ^ prec = 2 * 2 ^ (prec - 1)).
  { rewrite <- Z.pow_succ_r by lia. f_equal. lia. }
  unfold shr_fexp.
  destruct (Z.ltb_spec m2 (2 ^ prec)) as [Hlt|Hge].
  - assert (Hd2 : Zdigits2 m2 = prec) by (apply Zdigits2_unique; lia).
    rewrite Hd2. unfold fexp.
    replace (Z.max (prec + (e + n) - prec) (emin prec emax) - (e + n)) with 0 by lia.
    cbn [shr shr_record_of_loc shr_m loc_of_shr_record round_nearest_even].
    rewrite Hd2.
    replace (Z.max (prec + (e + n) - prec) (emin prec emax) - (e + n)) with 0 by lia.
    reflexivity.
  - assert (Hm2' : m2 = 2 ^ prec) by lia.
    assert (Hd2 : Zdigits2 m2 = prec + 1).
    { apply Zdigits2_unique; [|lia]. replace (prec + 1 - 1) with prec by lia.
      rewrite Z.pow_add_r, Z.pow_1_r by lia. lia. }
    rewrite Hd2. unfold fexp.
    replace (Z.max (prec + 1 + (e + n) - prec) (emin prec emax) - (e + n)) with 1 by lia.
    cbn [shr shr_record_of_loc iter_pos].
    destruct (shr_1_spec (Build_shr_record m2 false false)) as (E1 & E2 & E3);
      [cbn; lia|]. cbn [shr_m shr_r shr_s] in E1, E2, E3.
    assert (Hodd : Z.odd m2 = false).
    { rewrite Hm2', Hpp, Z.odd_mul. reflexivity. }
    destruct (shr_1 (Build_shr_record m2 false false)) as [m1 r1 s1].
    cbn [shr_m shr_r shr_s] in *. rewrite Hodd in E2. cbn in E3. subst r1 s1.
    cbn [loc_of_shr_record round_nearest_even shr_m].
    assert (Hm1 : m1 = 2 ^ (prec - 1)).
    { rewrite E1, Hm2', Hpp. rewrite Z.mul_comm, Z.div_mul by lia. reflexivity. }
    assert (Hd1 : Zdigits2 m1 = prec) by (apply Zdigits2_unique; lia).
    rewrite Hd1.
    replace (Z.max (prec + (e + n + 1) - prec) (emin prec emax) - (e + n + 1)) with 0 by lia.
    reflexivity.
Qed.


Lemma Zdigits2_mono (c t : Z) : 0 < c <= t -> Zdigits2 c <= Zdigits2 t.
Proof.
intros [Hc Hct].
pose proof (Zdigits2_bounds c Hc) as [Cl Cu].
pose proof (Zdigits2_bounds t ltac:(lia)) as [Tl Tu].
pose proof (Zdigits2_pos t ltac:(lia)) as Tp.
destruct (Z.le_gt_cases (Zdigits2 c) (Zdigits2 t)) as [H|H]; [exact H|exfalso].
assert (2 ^ Zdigits2 t <= 2 ^ (Zdigits2 c - 1)) by (apply Z.pow_le_mono_r; lia).
lia.
Qed.

Lemma pos_iter_xO (k p : positive) : Zpos (Pos.iter xO p k) = Zpos p * 2 ^ Zpos k.
Proof.
induction k as [|k IH] using Pos.peano_ind.
- cbn [Pos.iter]. lia.
- rewrite Pos.iter_succ, Pos2Z.inj_xO, IH, Pos2Z.inj_succ, Z.pow_succ_r by lia. lia.
Qed.



Lemma finish_cases (m2 E : Z) :
  2 ^ (prec - 1) <= m2 <= 2 ^ prec ->
  exists m e,
    finish prec m2 E = S754_finite false m e /\
    Zdigits2 (Zpos m) = prec /\
    ((Zpos m = m2 /\ e = E /\ m2 < 2 ^ prec) \/
     (m2 = 2 ^ prec /\ Zpos m = 2 ^ (prec - 1) /\ e = E + 1)).
Proof.
  intros Hm. unfold finish.
  assert (Hp1 : 0 < 2 ^ (prec - 1)) by (apply Z.pow_pos_nonneg; lia).
  assert (Hpp : 2 ^ prec = 2 * 2 ^ (prec - 1)).
  { rewrite <- Z.pow_succ_r by lia. f_equal. lia. }
  destruct (Z.ltb_spec m2 (2 ^ prec)) as [Hlt|Hge].
  - exists (Z.to_pos m2), E. rewrite Z2Pos.id by lia.
    split; [reflexivity|]. split; [apply Zdigits2_unique; lia|]. left. auto.
  - exists (Z.to_pos (2 ^ (prec - 1))), (E + 1). rewrite Z2Pos.id by lia.
    split; [reflexivity|]. split; [apply Zdigits2_unique; lia|]. right. lia.
Qed.

Lemma finish_mono (m2 m2' E : Z) :
  2 ^ (prec - 1) <= m2 <= 2 ^ prec ->
  2 ^ (prec - 1) <= m2' <= 2 ^ prec ->
  m2 <= m2' ->
  pos_le (finish prec m2 E) (finish prec m2' E).
Proof.
  intros H1 H2 Hle.
  destruct (finish_cases m2 E H1) as (m & e & -> & _ & C).
  destruct (finish_cases m2' E H2) as (m' & e' & -> & _ & C').
  cbn. lia.
Qed.

Lemma finish_exp_lt (m2 m2' E E' : Z) :
  2 ^ (prec - 1) <= m2 <= 2 ^ prec ->
  2 ^ (prec - 1) <= m2' <= 2 ^ prec ->
  E < E' ->
  pos_le (finish prec m2 E) (finish prec m2' E').
Proof.
  intros H1 H2 Hlt.
  destruct (finish_cases m2 E H1) as (m & e & -> & _ & C).
  destruct (finish_cases m2' E' H2) as (m' & e' & -> & _ & C').
  cbn. lia.
Qed.


Lemma int_mant_bounds (z : Z) :
  0 < z -> 2 ^ (prec - 1) <= int_mant prec z <= 2 ^ prec.
Proof.
  intros Hz. unfold int_mant.
  pose proof (Zdigits2_bounds z Hz) as [Dl Du].
  pose proof (Zdigits2_pos z Hz) as Dp.
  set (d := Zdigits2 z) in *.
  destruct (Z.leb_spec (d - prec) 0) as [Hn|Hn].
  - assert (H2 : 0 < 2 ^ (- (d - prec))) by (apply Z.pow_pos_nonneg; lia).
    assert (E1 : 2 ^ (prec - 1) = 2 ^ (d - 1) * 2 ^ (- (d - prec))).
    { rewrite <- Z.pow_add_r by lia. f_equal. lia. }
    assert (E2 : 2 ^ prec = 2 ^ d * 2 ^ (- (d - prec))).
    { rewrite <- Z.pow_add_r by lia. f_equal. lia. }
    rewrite E1, E2. nia.
  - assert (Hn2 : 0 < 2 ^ (d - prec)) by (apply Z.pow_pos_nonneg; lia).
    assert (Hb : 2 ^ (prec - 1) <= z / 2 ^ (d - prec) < 2 ^ prec).
    { assert (E1 : 2 ^ (d - 1) = 2 ^ (d - prec) * 2 ^ (prec - 1)).
      { rewrite <- Z.pow_add_r by lia. f_equal. lia. }
      assert (E2 : 2 ^ d = 2 ^ (d - prec) * 2 ^ prec).
      { rewrite <- Z.pow_add_r by lia. f_equal. lia. }
      rewrite E1 in Dl. rewrite E2 in Du. split.
      - apply Z.div_le_lower_bound; lia.
      - apply Z.div_lt_upper_bound; lia. }
    pose proof (round_nearest_even_range (z / 2 ^ (d - prec))
                  (new_location_even (2 ^ (d - prec)) (z mod 2 ^ (d - prec)))).
    lia.
Qed.

Lemma shl_align_spec (p : positive) (e e' : Z) :
  (e' < e /\ exists m', shl_align p e e' = (m', e') /\ Zpos m' = Zpos p * 2 ^ (e - e')) \/
  (e <= e' /\ shl_align p e e' = (p, e)).
Proof.
  unfold shl_align. destruct (e' - e) as [|k|k] eqn:Ek.
  - right. split; [lia|reflexivity].
  - right. split; [lia|reflexivity].
  - left. split; [lia|]. eexists. split; [reflexivity|].
    rewrite pos_iter_xO. f_equal. f_equal. lia.
Qed.

Lemma of_int_spec (z : Z) :
  0 < z -> Zdigits2 z + 1 <= emax ->
  binary_normalize prec emax z 0 false = finish prec (int_mant prec z) (Zdigits2 z - prec).
Proof.
  intros Hz Hd.
  pose proof (Zdigits2_bounds z Hz) as [Dl Du].
  pose proof (Zdigits2_pos z Hz) as Dp.
  destruct z as [|p|p]; try lia.
  cbn [binary_normalize]. unfold binary_round, int_mant.
  change (Zpos (digits2_pos p)) with (Zdigits2 (Zpos p)).
  remember (Zdigits2 (Zpos p)) as d eqn:Ed.
  assert (Hemin : emin prec emax <= d - prec) by (unfold emin; lia).
  replace (fexp prec emax (d + 0)) with (d - prec) by (unfold fexp; lia).
  remember (d - prec) as n eqn:En.
  destruct (shl_align_spec p 0 n) as [(Hlt & m' & -> & Hm')|(Hge & ->)].
  - (* the integer fits: the mantissa is shifted left, nothing is lost *)
    destruct (Z.leb_spec n 0) as [_|]; [|lia].
    rewrite Z.sub_0_l in Hm'. rewrite <- Hm'.
    apply finish_exact; try assumption; try lia.
    rewrite Hm'.
    assert (H2 : 0 < 2 ^ (- n)) by (apply Z.pow_pos_nonneg; lia).
    assert (E1 : 2 ^ (prec - 1) = 2 ^ (d - 1) * 2 ^ (- n)).
    { rewrite <- Z.pow_add_r by lia. f_equal. lia. }
    assert (E2 : 2 ^ prec = 2 ^ d * 2 ^ (- n)).
    { rewrite <- Z.pow_add_r by lia. f_equal. lia. }
    rewrite E1, E2. nia.
  - destruct (binary_round_aux_normal (Zpos p) 0 loc_Exact)
      as (-> & Hm & _); try lia; rewrite <- Ed, <- En; try lia.
    rewrite Z.add_0_l. f_equal.
    destruct (Z.leb_spec n 0) as [Hn|Hn].
    + replace n with 0 by lia. cbn. lia.
    + rewrite shr_pos by lia. cbn [fst shr_record_of_loc].
      destruct (shr_nat_spec (Zpos p) (Z.to_nat n) ltac:(lia)) as [Em El].
      rewrite Z2Nat.id in Em, El by lia.
      rewrite Em, El. reflexivity.
Qed.

Lemma int_mant_mono (c t : Z) :
  0 < c <= t -> Zdigits2 c = Zdigits2 t -> int_mant prec c <= int_mant prec t.
Proof.
  intros [Hc Hct] Hd. unfold int_mant. rewrite Hd.
  set (n := Zdigits2 t - prec).
  destruct (Z.leb_spec n 0) as [Hn|Hn].
  - apply Z.mul_le_mono_nonneg_r; [apply Z.pow_nonneg|]; lia.
  - set (P := 2 ^ n).
    assert (HP : 0 < P) by (apply Z.pow_pos_nonneg; lia).
    pose proof (Z.div_le_mono c t P HP Hct) as Hq.
    pose proof (Z.div_mod c P ltac:(lia)) as Hc'.
    pose proof (Z.div_mod t P ltac:(lia)) as Ht'.
    pose proof (Z.mod_pos_bound c P HP) as Bc.
    pose proof (Z.mod_pos_bound t P HP) as Bt.
    pose proof (round_nearest_even_range (c / P) (new_location_even P (c mod P))) as Rc.
    pose proof (round_nearest_even_range (t / P) (new_location_even P (t mod P))) as Rt.
    destruct (Z.eq_dec (c / P) (t / P)) as [E|E]; [|lia].
    assert (Hr : c mod P <= t mod P) by nia.
    rewrite E in *. clear Rc Rt.
    unfold new_location_even, round_nearest_even.
    destruct (Z.eqb_spec (c mod P) 0); destruct (Z.eqb_spec (t mod P) 0);
      try destruct (Z.compare_spec (2 * (c mod P)) P);
      try destruct (Z.compare_spec (2 * (t mod P)) P);
      try destruct (Z.even (t / P)); lia.
Qed.

Lemma of_int_finite (z : Z) :
  0 < z -> Zdigits2 z + 1 <= emax ->
  exists m e,
    binary_normalize prec emax z 0 false = S754_finite false m e /\
    Zdigits2 (Zpos m) = prec /\
    Zdigits2 z - prec <= e <= Zdigits2 z - prec + 1.
Proof.
  intros Hz Hd. rewrite of_int_spec by assumption.
  destruct (finish_cases (int_mant prec z) (Zdigits2 z - prec) (int_mant_bounds z Hz))
    as (m & e & -> & Hdm & C).
  exists m, e. split; [reflexivity|]. split; [assumption|lia].
Qed.

Lemma of_int_mono (c t : Z) :
  0 < c <= t -> Zdigits2 t + 1 <= emax ->
  pos_le (binary_normalize prec emax c 0 false) (binary_normalize prec emax t 0 false).
Proof.
  intros Hct Hd.
  pose proof (Zdigits2_mono c t Hct) as Hdm.
  rewrite !of_int_spec by lia.
  destruct (Z.eq_dec (Zdigits2 c) (Zdigits2 t)) as [E|E].
  - rewrite E. apply finish_mono; try apply int_mant_bounds; try lia.
    apply int_mant_mono; assumption.
  - apply finish_exp_lt; try apply int_mant_bounds; lia.
Qed.

Lemma Zdigits2_le (z k : Z) : 0 < z < 2 ^ k -> Zdigits2 z <= k.
Proof.
  intros [Hz Hk]. pose proof (Zdigits2_bounds z Hz) as [Dl _].
  destruct (Z.le_gt_cases (Zdigits2 z) k) as [H|H]; [exact H|exfalso].
  destruct (Z.le_gt_cases 0 k) as [Hk0|Hk0].
  - assert (2 ^ k <= 2 ^ (Zdigits2 z - 1)) by (apply Z.pow_le_mono_r; lia). lia.
  - rewrite Z.pow_neg_r in Hk by lia. lia.
Qed.

Lemma shiftl_match (m s : Z) :
  0 < s ->
  match s with Zpos _ => Z.shiftl m s | Z0 => m | Zneg _ => 0 end = m * 2 ^ s.
Proof.
  intros Hs. destruct s as [|p|p]; try lia. apply Z.shiftl_mul_pow2. lia.
Qed.

Lemma new_location_zero (nb : Z) : new_location nb 0 = loc_Exact.
Proof. unfold new_location. destruct (Z.even nb); reflexivity. Qed.

(** A positive float divided by one that is not smaller gives a positive
    float that is at most one. *)
Lemma SFdiv_le_one (mx my : positive) (ex ey : Z) :
  Zdigits2 (Zpos mx) = prec ->
  Zdigits2 (Zpos my) = prec ->
  pos_le (S754_finite false mx ex) (S754_finite false my ey) ->
  emin prec emax <= ex - ey - prec ->
  exists m e,
    SFdiv prec emax (S754_finite false mx ex) (S754_finite false my ey)
    = S754_finite false m e /\
    e < 0 /\ Zpos m <= 2 ^ (- e).
Proof.
  intros Hdx Hdy Hle Hemin.
  pose proof (Zdigits2_bounds (Zpos mx) ltac:(lia)) as [Xl Xu].
  pose proof (Zdigits2_bounds (Zpos my) ltac:(lia)) as [Yl Yu].
  rewrite Hdx in Xl, Xu. rewrite Hdy in Yl, Yu.
  assert (Hp1 : 0 < 2 ^ (prec - 1)) by (apply Z.pow_pos_nonneg; lia).
  assert (Hpp : 2 ^ prec = 2 * 2 ^ (prec - 1)).
  { rewrite <- Z.pow_succ_r by lia. f_equal. lia. }
  assert (Hpp1 : 2 ^ (prec + 1) = 2 * 2 ^ prec).
  { rewrite Z.pow_add_r, Z.pow_1_r by lia. lia. }
  cbn [SFdiv xorb]. unfold SFdiv_core_binary. rewrite Hdx, Hdy.
  replace (Z.min (fexp prec emax (prec + ex - (prec + ey))) (ex - ey))
    with (ex - ey - prec) by (unfold fexp; lia).
  replace (ex - ey - (ex - ey - prec)) with prec by lia.
  rewrite shiftl_match by lia.
  set (e' := ex - ey - prec).
  set (m' := Zpos mx * 2 ^ prec).
  pose proof (Z.div_mod m' (Zpos my) ltac:(lia)) as Hdm.
  pose proof (Z.mod_pos_bound m' (Zpos my) ltac:(lia)) as Hmb.
  assert (Hqr : Z.div_eucl m' (Zpos my) = (m' / Zpos my, m' mod Zpos my)).
  { unfold Z.div, Z.modulo. destruct (Z.div_eucl m' (Zpos my)); reflexivity. }
  rewrite Hqr. set (q := m' / Zpos my) in *. set (r := m' mod Zpos my) in *.
  assert (Hq : 2 ^ (prec - 1) <= q < 2 ^ (prec + 1)).
  { unfold q, m'. split.
    - apply Z.div_le_lower_bound; nia.
    - apply Z.div_lt_upper_bound; nia. }
  assert (Hdq : Zdigits2 q = prec \/ Zdigits2 q = prec + 1).
  { destruct (Z.lt_ge_cases q (2 ^ prec)).
    - left. apply Zdigits2_unique; lia.
    - right. apply Zdigits2_unique; [|lia]. replace (prec + 1 - 1) with prec by lia. lia. }
  assert (He'1 : emin prec emax <= e' + (Zdigits2 q - prec)) by (unfold e'; lia).
  assert (He'2 : e' + (Zdigits2 q - prec) + 1 <= emax - prec) by (unfold e'; cbn in Hle; lia).
  destruct (binary_round_aux_normal q e' (new_location (Zpos my) r))
    as (-> & Hsm & Hb); try lia.
  set (n := Zdigits2 q - prec) in *.
  set (mrs := fst (shr (shr_record_of_loc q (new_location (Zpos my) r)) e' n)) in *.
  pose proof (round_nearest_even_range (shr_m mrs) (loc_of_shr_record mrs)) as Hr.
  rewrite Hsm in Hr.
  destruct (Z.le_gt_cases (ex - ey + n) 0) as [HA|HB].
  - (* the exponent leaves room for a full mantissa below one *)
    destruct (finish_cases (round_nearest_even (shr_m mrs) (loc_of_shr_record mrs)) (e' + n))
      as (m & e & -> & _ & C); [rewrite Hsm; lia|].
    exists m, e. split; [reflexivity|].
    assert (He : e <= 1 - prec) by (unfold e' in C; lia).
    split; [lia|].
    destruct C as [(Em & Ee & Hlt)|(_ & Em & Ee)].
    + assert (2 ^ prec <= 2 ^ (- e)) by (apply Z.pow_le_mono_r; unfold e' in *; lia). lia.
    + rewrite Em. apply Z.pow_le_mono_r; lia.
  - (* equal operands: the quotient is exactly one *)
    assert (En : n = Zdigits2 q - prec) by reflexivity.
    assert (Hle' := Hle). cbn in Hle'.
    assert (Hn : n = 1) by lia.
    assert (Hex : ex = ey) by lia.
    assert (Hq2 : 2 ^ prec <= q).
    { destruct (Z.lt_ge_cases q (2 ^ prec)) as [Hlt|]; [|assumption].
      assert (Zdigits2 q = prec) by (apply Zdigits2_unique; lia). lia. }
    assert (Hm : Zpos mx = Zpos my).
    { cbn in Hle. destruct Hle as [|[_ Hle]]; [lia|].
      destruct (Z.eq_dec (Zpos mx) (Zpos my)) as [|Hne]; [assumption|exfalso].
      assert (q < 2 ^ prec); [|lia].
      unfold q, m'. apply Z.div_lt_upper_bound; nia. }
    assert (Hq' : q = 2 ^ prec).
    { unfold q, m'. rewrite Hm, Z.mul_comm. apply Z.div_mul. lia. }
    assert (Hr0 : r = 0).
    { unfold r, m'. rewrite Hm, Z.mul_comm. apply Z.mod_mul. lia. }
    assert (Hloc : loc_of_shr_record mrs = loc_Exact).
    { unfold mrs. rewrite Hr0, new_location_zero, Hn, shr_pos by lia.
      cbn [fst shr_record_of_loc].
      destruct (shr_nat_spec q (Z.to_nat 1) ltac:(lia)) as [_ El].
      rewrite El. change (Z.of_nat (Z.to_nat 1)) with 1. rewrite Z.pow_1_r.
      rewrite Hq', Hpp, Z.mul_comm, Z.mod_mul by lia. reflexivity. }
    rewrite Hloc, Hsm, Hn, Z.pow_1_r. cbn [round_nearest_even].
    assert (Hhalf : q / 2 = 2 ^ (prec - 1)).
    { rewrite Hq', Hpp, Z.mul_comm. apply Z.div_mul. lia. }
    rewrite Hhalf. unfold finish.
    destruct (Z.ltb_spec (2 ^ (prec - 1)) (2 ^ prec)) as [_|]; [|lia].
    eexists. eexists. split; [reflexivity|].
    rewrite Z2Pos.id by lia. unfold e'. split; [lia|].
    apply Z.pow_le_mono_r; lia.
Qed.

End RoundingFacts.

(** ** Scenarios *)

(** C7: weights [1,1,2] in column mode, three visible children, a 400x100
    container and zero padding: one row, child 0 at x = 0 with width 100,
    child 1 at x = 100 with width 100, child 2 at x = 200 with width 200, all
    at y = 0 and 100 high. *)
Theorem Layout_columns_1_1_2 (tk : Host) (o0 o1 o2 : CanvasObject.t) :
  Padding tk = zero ->
  CanvasObject.Visible o0 = true ->
  CanvasObject.Visible o1 = true ->
  CanvasObject.Visible o2 = true ->
  let g := NewWeightedGridLayoutWithColumns [1; 1; 2] in
  TotalCols g = 4 /\
  countRows tk g [o0; o1; o2] = Some 1 /\
  exists calls,
    Layout tk g [o0; o1; o2] (size_of_ints 400 100)
    = Some ([placeAt o0 0 0 100 100; placeAt o1 100 0 100 100; placeAt o2 200 0 200 100],
            calls).
Proof.
  intros Hp H0 H1 H2.
  destruct tk as [pad dh indef]; cbn in Hp; subst pad.
  visible_child o0 H0. visible_child o1 H1. visible_child o2 H2.
  cbn zeta. split; [reflexivity|]. split; [reflexivity|].
  eexists. vm_compute. reflexivity.
Qed.

Lemma Layout_columns_1_1_2_witness :
  let g := NewWeightedGridLayoutWithColumns [1; 1; 2] in
  let o := plainObject true in
  TotalCols g = 4 /\
  countRows (hostWithPadding 0) g [o; o; o] = Some 1 /\
  exists calls,
    Layout (hostWithPadding 0) g [o; o; o] (size_of_ints 400 100)
    = Some ([placeAt o 0 0 100 100; placeAt o 100 0 100 100; placeAt o 200 0 200 100],
            calls).
Proof.
  apply (Layout_columns_1_1_2 (hostWithPadding 0)
           (plainObject true) (plainObject true) (plainObject true));
    reflexivity.
Defined.

(** C1, as amended: rows [1,2,1] in row mode (total weight 4), three visible
    children, a 100x300 container and zero padding: the unit height is
    300 / 4 = 75, so child 0 is 75 high at y = 0, child 1 (two units) is 150
    high at y = 75 and child 2 is 75 high at y = 225, each 100 wide. *)
Theorem Layout_rows_1_2_1 (tk : Host) (o0 o1 o2 : CanvasObject.t) :
  Padding tk = zero ->
  CanvasObject.Visible o0 = true ->
  CanvasObject.Visible o1 = true ->
  CanvasObject.Visible o2 = true ->
  let g := NewWeightedGridLayoutWithRows [1; 2; 1] in
  TotalCols g = 4 /\
  horizontal tk g = false /\
  exists calls,
    Layout tk g [o0; o1; o2] (size_of_ints 100 300)
    = Some ([placeAt o0 0 0 100 75; placeAt o1 0 75 100 150; placeAt o2 0 225 100 75],
            calls).
Proof.
  intros Hp H0 H1 H2.
  destruct tk as [pad dh indef]; cbn in Hp; subst pad.
  visible_child o0 H0. visible_child o1 H1. visible_child o2 H2.
  cbn zeta. split; [reflexivity|]. split; [reflexivity|].
  eexists. vm_compute. reflexivity.
Qed.

Lemma Layout_rows_1_2_1_witness :
  let g := NewWeightedGridLayoutWithRows [1; 2; 1] in
  let o := plainObject true in
  TotalCols g = 4 /\
  horizontal (hostWithPadding 0) g = false /\
  exists calls,
    Layout (hostWithPadding 0) g [o; o; o] (size_of_ints 100 300)
    = Some ([placeAt o 0 0 100 75; placeAt o 0 75 100 150; placeAt o 0 225 100 75],
            calls).
Proof.
  apply (Layout_rows_1_2_1 (hostWithPadding 0)
           (plainObject true) (plainObject true) (plainObject true));
    reflexivity.
Defined.

(** C1, as stated, fails: the three heights are not 100, 200 and 100. *)
Lemma Layout_rows_1_2_1_heights_not_100_200_100 :
  ~ (exists objects' calls,
       Layout (hostWithPadding 0) (NewWeightedGridLayoutWithRows [1; 2; 1])
         [plainObject true; plainObject true; plainObject true] (size_of_ints 100 300)
       = Some (objects', calls) /\
       map (fun o => Height (CanvasObject.Size o)) objects'
       = [f32_of_int 100; f32_of_int 200; f32_of_int 100]).
Proof.
  intros (objects' & calls & HL & Hh).
  vm_compute in HL. injection HL as <- _.
  vm_compute in Hh. discriminate Hh.
Qed.

(** ** Invisible children *)

Section Invisible.
Variable tk : Host.
Variable g : weightedGridLayout.
Variables cellWidth cellHeight : float64.

Lemma layoutChild_invisible idx child c :
  CanvasObject.Visible child = false ->
  layoutChild tk g cellWidth cellHeight idx child c = Some (child, [], c).
Proof. intros Hv. unfold layoutChild. rewrite Hv. reflexivity. Qed.

Lemma layoutChild_calls idx child c child' calls c' :
  layoutChild tk g cellWidth cellHeight idx child c = Some (child', calls, c') ->
  (CanvasObject.Visible child = false /\ child' = child /\ calls = [] /\ c' = c) \/
  (CanvasObject.Visible child = true /\ Forall (fun k => callTarget k = idx) calls).
Proof.
  unfold layoutChild. destruct (CanvasObject.Visible child); cbn.
  - intros H. right. split; [reflexivity|].
    destruct (nth_error (Cols g) idx) as [span|]; cbn in H; [|discriminate].
    destruct (horizontal tk g); cbn in H;
      (destruct (advance tk g (Z.to_nat span) c); cbn in H; [|discriminate]);
      injection H as <- <- <-; repeat constructor.
  - intros H. injection H as <- <- <-. left. auto.
Qed.

(** Every call made by the loop started at index [k] targets a visible
    child, and the invisible children come out as they went in. *)
Lemma layoutLoop_frame objects : forall k c objects' calls c',
  layoutLoop tk g cellWidth cellHeight k objects c = Some (objects', calls, c') ->
  Forall (fun call => exists child,
            (k <= callTarget call)%nat /\
            nth_error objects (callTarget call - k) = Some child /\
            CanvasObject.Visible child = true) calls /\
  (forall j child, nth_error objects j = Some child ->
                   CanvasObject.Visible child = false ->
                   nth_error objects' j = Some child).
Proof.
  induction objects as [|child rest IH]; intros k c objects' calls c' H; cbn in H.
  - injection H as <- <- <-. split; [constructor|]. intros [|j] ? Hj; discriminate Hj.
  - destruct (layoutChild tk g cellWidth cellHeight k child c) as [[[ch1 cs1] c1]|] eqn:Hc;
      cbn in H; [|discriminate].
    destruct (layoutLoop tk g cellWidth cellHeight (S k) rest c1) as [[[rest' cs2] c2]|] eqn:Hr;
      cbn in H; [|discriminate].
    injection H as <- <- <-.
    destruct (IH _ _ _ _ _ Hr) as [IHc IHo].
    split.
    + apply Forall_app. split.
      * destruct (layoutChild_calls _ _ _ _ _ _ Hc) as [(_ & _ & -> & _)|[Hv Hf]].
        -- constructor.
        -- eapply Forall_impl; [|exact Hf]. cbn. intros call ->.
           exists child. rewrite Nat.sub_diag. auto.
      * eapply Forall_impl; [|exact IHc]. cbn.
        intros call (ch & Hle & Hn & Hv). exists ch. split; [lia|]. split; [|exact Hv].
        replace (callTarget call - k)%nat with (S (callTarget call - S k)) by lia.
        exact Hn.
    + intros [|j] ch Hj Hv; cbn in *.
      * injection Hj as ->. rewrite (layoutChild_invisible _ _ _ Hv) in Hc.
        injection Hc as <- _ _. reflexivity.
      * eauto.
Qed.

End Invisible.

(** C6: [Layout] makes every [Move] and [Resize] call on a visible child, an
    invisible child comes out of the pass with the position and size it went
    in with, and the loop body leaves the cursor (row, col and the flat unit
    index) as it is for an invisible child. *)
Theorem Layout_leaves_invisible_untouched (tk : Host) (g : weightedGridLayout)
    (objects objects' : list CanvasObject.t) (size : Size) (calls : list Call) :
  Layout tk g objects size = Some (objects', calls) ->
  (forall call, In call calls ->
     exists child, nth_error objects (callTarget call) = Some child /\
                   CanvasObject.Visible child = true) /\
  (forall idx child, nth_error objects idx = Some child ->
     CanvasObject.Visible child = false ->
     nth_error objects' idx = Some child /\ ~ In idx (map callTarget calls)) /\
  (forall cellWidth cellHeight idx child c,
     CanvasObject.Visible child = false ->
     layoutChild tk g cellWidth cellHeight idx child c = Some (child, [], c)).
Proof.
  intros H. unfold Layout in H.
  destruct (countRows tk g objects) as [rows|]; cbn in H; [|discriminate].
  destruct (cellSizes tk g rows size) as [cw ch].
  destruct (layoutLoop tk g cw ch 0 objects cursor0) as [[[os cs] c]|] eqn:HL;
    cbn in H; [|discriminate].
  injection H as <- <-.
  destruct (layoutLoop_frame _ _ _ _ _ _ _ _ _ _ HL) as [Hc Ho].
  rewrite Forall_forall in Hc.
  assert (Hcalls : forall call, In call cs ->
            exists child, nth_error objects (callTarget call) = Some child /\
                          CanvasObject.Visible child = true).
  { intros call Hin. destruct (Hc _ Hin) as (child & _ & Hn & Hv).
    rewrite Nat.sub_0_r in Hn. eauto. }
  split; [exact Hcalls|]. split.
  - intros idx child Hn Hv. split; [eauto|].
    intros Hin. apply in_map_iff in Hin. destruct Hin as (call & <- & Hin).
    destruct (Hcalls _ Hin) as (child' & Hn' & Hv'). congruence.
  - intros. apply layoutChild_invisible. assumption.
Qed.

Lemma Layout_leaves_invisible_untouched_witness :
  let tk := hostWithPadding 4 in
  let g := NewWeightedGridLayoutWithColumns [1; 1; 2] in
  let objects := [plainObject true; plainObject false; plainObject true] in
  exists objects' calls,
    Layout tk g objects (size_of_ints 400 100) = Some (objects', calls) /\
    (forall idx child, nth_error objects idx = Some child ->
       CanvasObject.Visible child = false ->
       nth_error objects' idx = Some child /\ ~ In idx (map callTarget calls)).
Proof.
  intros tk g objects.
  destruct (Layout tk g objects (size_of_ints 400 100)) as [[objects' calls]|] eqn:HL;
    [|vm_compute in HL; discriminate HL].
  exists objects', calls. split; [reflexivity|].
  exact (proj1 (proj2 (Layout_leaves_invisible_untouched tk g objects objects'
                         (size_of_ints 400 100) calls HL))).
Defined.

(** ** CMButton *)

Section Button.
Import Widget.
Variable Color : Type.
Variable blendColor : Color -> Color -> Color.
Variable onTapped : World Color -> World Color.

(** C9: a tap on a disabled button returns at once: the world after the
    tap is the world before it, so no animation is stopped or started, no
    refresh is requested, the [OnTapped] closure does not run and no field
    of the button changes. *)
Theorem Tapped_disabled (w : World Color) :
  Disabled (button w) = true ->
  Tapped onTapped w = w /\
  effects (Tapped onTapped w) = effects w /\
  button (Tapped onTapped w) = button w.
Proof.
  intros Hd. assert (H : Tapped onTapped w = w).
  { unfold Tapped. rewrite Hd. reflexivity. }
  rewrite H. auto.
Qed.

(** An enabled button with an animation and a handler does all of it, in
    order: the early return is what keeps the disabled one silent. *)
Lemma Tapped_enabled (w : World Color) :
  Disabled (button w) = false ->
  tapAnimSet (button w) = true ->
  OnTappedSet (button w) = true ->
  Tapped onTapped w
  = onTapped {| button := button w;
                effects := effects w ++ [AnimStop; AnimStart; WidgetRefresh; CallOnTapped] |}.
Proof.
  intros Hd Ha Ho. unfold Tapped, tapAnimation, Refresh, emit. rewrite Hd, Ha. cbn.
  rewrite Ho. repeat rewrite <- app_assoc. reflexivity.
Qed.

Lemma applies_unique (b : CMButton Color) (k k' : ColorCase) :
  applies k b -> applies k' b -> k = k'.
Proof.
  destruct k, k'; cbn; intros H H'; try reflexivity;
    repeat match goal with H : _ /\ _ |- _ => destruct H end;
    congruence.
Qed.

Lemma importance_eqb_spec (a b : ButtonImportance) :
  importance_eqb a b = true <-> a = b.
Proof. destruct a, b; cbn; split; congruence. Qed.

(** C10: for every button exactly one of the five cases applies, in the
    order disabled, focused, hovered, high importance, default, and
    [buttonColor] returns the colour of that case. *)
Theorem buttonColor_priority (b : CMButton Color) :
  exists k : ColorCase,
    applies k b /\
    (forall k', applies k' b -> k' = k) /\
    buttonColor blendColor b = caseColor blendColor k b.
Proof.
  assert (Hex : exists k : ColorCase,
             applies k b /\ buttonColor blendColor b = caseColor blendColor k b).
  { unfold buttonColor.
    destruct (Disabled b) eqn:Hd; [exists CaseDisabled; cbn; auto|].
    destruct (focused b) eqn:Hf; [exists CaseFocused; cbn; auto|].
    destruct (hovered b) eqn:Hh.
    - exists CaseHovered; cbn. repeat split; auto. destruct (Importance b); reflexivity.
    - destruct (importance_eqb (Importance b) HighImportance) eqn:Hi.
      + exists CaseHigh; cbn. apply importance_eqb_spec in Hi. auto.
      + exists CaseDefault; cbn. repeat split; auto.
        intros Hc. apply importance_eqb_spec in Hc. congruence. }
  destruct Hex as (k & Hk & Hc). exists k. split; [exact Hk|]. split; [|exact Hc].
  intros k' Hk'. exact (applies_unique b k' k Hk' Hk).
Qed.

End Button.

Lemma Tapped_disabled_witness :
  let b := {| Widget.disabled := true; Widget.Text := String.EmptyString;
              Widget.Importance := Widget.HighImportance;
              Widget.ColorEnabled := 1%nat; Widget.ColorDisabled := 2%nat;
              Widget.ColorFocused := 3%nat; Widget.ColorPrimary := 4%nat;
              Widget.ColorHover := 5%nat; Widget.hovered := true; Widget.focused := true;
              Widget.tapAnimSet := true; Widget.OnTappedSet := true |} in
  let w := {| Widget.button := b; Widget.effects := [] |} in
  let handler := fun w' : Widget.World nat =>
    {| Widget.button := Widget.button w'; Widget.effects := [] |} in
  Widget.Tapped handler w = w /\
  Widget.effects (Widget.Tapped handler w) = [] /\
  Widget.button (Widget.Tapped handler w) = b.
Proof.
  intros b w handler. apply (Tapped_disabled nat handler w). reflexivity.
Defined.

(** ** The cursor in horizontal mode *)

Lemma wrap_small (z : Z) : GoInt.minInt <= z <= GoInt.maxInt -> GoInt.wrap z = z.
Proof.
  unfold GoInt.minInt, GoInt.maxInt, GoInt.wrap. intros H.
  rewrite Z.mod_small; lia.
Qed.

Lemma visibleWeight_nonneg cols objects : forall idx,
  Forall (fun w => 0 <= w) cols -> 0 <= visibleWeight cols idx objects.
Proof.
  induction objects as [|child rest IH]; intros idx Hc; cbn; [lia|].
  specialize (IH (S idx) Hc).
  destruct (CanvasObject.Visible child); [|lia].
  destruct (nth_in_or_default idx cols 0) as [Hin| ->]; [|lia].
  rewrite Forall_forall in Hc. specialize (Hc _ Hin). lia.
Qed.

Lemma visibleWeight_app cols pre post : forall idx,
  visibleWeight cols idx (pre ++ post)
  = visibleWeight cols idx pre + visibleWeight cols (idx + length pre) post.
Proof.
  induction pre as [|child rest IH]; intros idx; cbn.
  - rewrite Nat.add_0_r. reflexivity.
  - rewrite IH. replace (S idx + length rest)%nat with (idx + S (length rest))%nat by lia. lia.
Qed.

Section Cursor.
Variable tk : Host.
Variable g : weightedGridLayout.
Hypothesis Hhoriz : horizontal tk g = true.
Hypothesis Htotal : 0 < TotalCols g.

Lemma advance1_inv (c : cursor) :
  0 <= i c < GoInt.maxInt ->
  cursorInv (TotalCols g) c ->
  exists c', advance1 tk g c = Some c' /\ i c' = i c + 1 /\ cursorInv (TotalCols g) c'.
Proof.
  intros Hi [Hcol Hrow]. unfold advance1, GoInt.rem, GoInt.add.
  assert (HmaxInt : GoInt.maxInt = 2 ^ 63 - 1) by reflexivity.
  assert (HminInt : GoInt.minInt = - 2 ^ 63) by reflexivity.
  rewrite (wrap_small (i c + 1)) by lia.
  destruct (Z.eqb_spec (TotalCols g) 0) as [E|_]; [lia|]. cbn.
  rewrite Hhoriz, Z.rem_mod_nonneg by lia.
  pose proof (Z.div_mod (i c) (TotalCols g) ltac:(lia)) as Hdm.
  pose proof (Z.mod_pos_bound (i c) (TotalCols g) Htotal) as Hmb.
  assert (Hq : 0 <= i c / TotalCols g) by (apply Z.div_pos; lia).
  assert (Hqi : i c / TotalCols g <= i c).
  { apply Z.div_le_upper_bound; nia. }
  destruct (Z.eqb_spec ((i c + 1) mod TotalCols g) 0) as [E|E].
  - eexists. split; [reflexivity|]. split; [reflexivity|]. unfold cursorInv; cbn.
    assert (Hd : (i c + 1) / TotalCols g = i c / TotalCols g + 1).
    { symmetry. apply (Z.div_unique _ _ _ 0); [lia|].
      pose proof (Z.div_mod (i c + 1) (TotalCols g) ltac:(lia)) as Hdm'.
      rewrite E in Hdm'.
      assert (i c mod TotalCols g = TotalCols g - 1); [|nia].
      assert (Hlt : i c / TotalCols g < (i c + 1) / TotalCols g) by nia.
      nia. }
    rewrite E, Hd, Hrow. rewrite wrap_small by lia. auto.
  - eexists. split; [reflexivity|]. split; [reflexivity|]. unfold cursorInv; cbn.
    assert (Hlt : i c mod TotalCols g + 1 < TotalCols g).
    { destruct (Z.eq_dec (i c mod TotalCols g + 1) (TotalCols g)) as [E'|]; [|lia].
      exfalso. apply E. replace (i c + 1) with (0 + (i c / TotalCols g + 1) * TotalCols g) by nia.
      rewrite Z.mod_add by lia. apply Z.mod_0_l. lia. }
    rewrite Hcol, Hrow. rewrite wrap_small by lia.
    split.
    + apply (Z.mod_unique _ _ (i c / TotalCols g)); lia.
    + apply (Z.div_unique _ _ _ (i c mod TotalCols g + 1)); lia.
Qed.

Lemma advance_inv (n : nat) : forall c,
  0 <= i c ->
  i c + Z.of_nat n <= GoInt.maxInt ->
  cursorInv (TotalCols g) c ->
  exists c', advance tk g n c = Some c' /\ i c' = i c + Z.of_nat n /\
             cursorInv (TotalCols g) c'.
Proof.
  induction n as [|n IH]; intros c H0 Hb Hinv; cbn [advance].
  - exists c. rewrite Z.add_0_r. auto.
  - destruct (advance1_inv c ltac:(lia) Hinv) as (c1 & -> & Hi1 & Hinv1). cbn.
    destruct (IH c1 ltac:(lia) ltac:(lia) Hinv1) as (c2 & -> & Hi2 & Hinv2).
    exists c2. split; [reflexivity|]. split; [lia|assumption].
Qed.

Hypothesis Hweights : Forall (fun w => 0 <= w) (Cols g).
Variables cellWidth cellHeight : float64.

Lemma layoutLoop_inv (objects : list CanvasObject.t) : forall idx c,
  (idx + length objects <= length (Cols g))%nat ->
  0 <= i c ->
  i c + visibleWeight (Cols g) idx objects <= GoInt.maxInt ->
  cursorInv (TotalCols g) c ->
  exists objects' calls c',
    layoutLoop tk g cellWidth cellHeight idx objects c = Some (objects', calls, c') /\
    i c' = i c + visibleWeight (Cols g) idx objects /\
    cursorInv (TotalCols g) c'.
Proof.
  induction objects as [|child rest IH]; intros idx c Hlen H0 Hb Hinv; cbn in *.
  - exists [], [], c. rewrite Z.add_0_r. auto.
  - assert (Hm : GoInt.maxInt = 9223372036854775807) by reflexivity.
    pose proof (visibleWeight_nonneg (Cols g) rest (S idx) Hweights) as Hrest.
    unfold layoutChild. destruct (CanvasObject.Visible child); cbn.
    + destruct (nth_error (Cols g) idx) as [w|] eqn:Hw;
        [|apply nth_error_None in Hw; lia].
      rewrite (nth_error_nth _ _ 0 Hw) in Hb. cbn.
      assert (Hw0 : 0 <= w).
      { rewrite Forall_forall in Hweights. apply Hweights. eapply nth_error_In; eauto. }
      destruct (advance_inv (Z.to_nat w) c H0 ltac:(lia) Hinv) as (c1 & Ha & Hi1 & Hinv1).
      rewrite Hhoriz. cbn. rewrite Ha. cbn.
      destruct (IH (S idx) c1 ltac:(lia) ltac:(lia) ltac:(lia) Hinv1)
        as (os & cs & c2 & -> & Hi2 & Hinv2). cbn.
      do 3 eexists. split; [reflexivity|]. split; [|assumption].
      rewrite (nth_error_nth _ _ 0 Hw). lia.
    + destruct (IH (S idx) c ltac:(lia) H0 ltac:(lia) Hinv)
        as (os & cs & c2 & -> & Hi2 & Hinv2). cbn.
      do 3 eexists. split; [reflexivity|]. split; [lia|assumption].
Qed.

End Cursor.

(** The loop over a list is the loop over a prefix followed by the loop over
    the rest, started at the cursor the prefix left. *)
Lemma layoutLoop_app tk g cw ch (pre post : list CanvasObject.t) : forall idx c,
  layoutLoop tk g cw ch idx (pre ++ post) c
  = ('(o1, cs1, c1) <- layoutLoop tk g cw ch idx pre c ;;
     '(o2, cs2, c2) <- layoutLoop tk g cw ch (idx + length pre) post c1 ;;
     Some (o1 ++ o2, cs1 ++ cs2, c2)).
Proof.
  induction pre as [|child rest IH]; intros idx c; cbn.
  - rewrite Nat.add_0_r.
    destruct (layoutLoop tk g cw ch idx post c) as [[[o2 cs2] c2]|]; reflexivity.
  - destruct (layoutChild tk g cw ch idx child c) as [[[ch1 cs1] c1]|]; cbn; [|reflexivity].
    rewrite IH. replace (S idx + length rest)%nat with (idx + S (length rest))%nat by lia.
    destruct (layoutLoop tk g cw ch (S idx) rest c1) as [[[o1 cs1'] c1']|]; cbn; [|reflexivity].
    destruct (layoutLoop tk g cw ch (idx + S (length rest)) post c1') as [[[o2 cs2] c2]|]; cbn;
      [|reflexivity].
    rewrite <- app_assoc. reflexivity.
Qed.

(** C8: in horizontal mode, with a positive total weight, weights that are
    not negative, a weight for every child and no overflow of the flat index:
    whenever a visible child is reached, the loop has run without fault over
    the children before it, the flat index [i] is the sum of the weights of
    the visible ones among them, [col = i mod TotalCols] and
    [row = i / TotalCols], and the child is placed from that cursor; one pass
    of the advance loop adds one to [i] and keeps [col] and [row] in step,
    also when the index crosses a multiple of the total weight. *)
Theorem Layout_cursor_invariant (tk : Host) (g : weightedGridLayout)
    (objects : list CanvasObject.t) (cellWidth cellHeight : float64) :
  horizontal tk g = true ->
  0 < TotalCols g ->
  Forall (fun w => 0 <= w) (Cols g) ->
  (length objects <= length (Cols g))%nat ->
  visibleWeight (Cols g) 0 objects <= GoInt.maxInt ->
  (forall pre child post,
     objects = pre ++ child :: post ->
     CanvasObject.Visible child = true ->
     exists objects' calls c,
       layoutLoop tk g cellWidth cellHeight 0 pre cursor0 = Some (objects', calls, c) /\
       i c = visibleWeight (Cols g) 0 pre /\
       cursorInv (TotalCols g) c /\
       layoutLoop tk g cellWidth cellHeight 0 objects cursor0
       = ('(o2, cs2, c2) <-
            layoutLoop tk g cellWidth cellHeight (length pre) (child :: post) c ;;
          Some (objects' ++ o2, calls ++ cs2, c2))) /\
  (forall c, 0 <= i c < GoInt.maxInt ->
     cursorInv (TotalCols g) c ->
     exists c', advance1 tk g c = Some c' /\ i c' = i c + 1 /\
                cursorInv (TotalCols g) c').
Proof.
  intros Hh Ht Hw Hlen Hb. split; [|intros c Hi Hinv; apply advance1_inv; assumption].
  intros pre child post -> Hv.
  rewrite visibleWeight_app in Hb. rewrite length_app in Hlen. cbn in Hlen.
  pose proof (visibleWeight_nonneg (Cols g) (child :: post) (0 + length pre) Hw) as Hpost.
  assert (Hm : GoInt.maxInt = 9223372036854775807) by reflexivity.
  assert (Hinv0 : cursorInv (TotalCols g) cursor0).
  { unfold cursorInv, cursor0; cbn [i col row].
    rewrite Z.mod_0_l, Z.div_0_l by lia. auto. }
  destruct (layoutLoop_inv tk g Hh Ht Hw cellWidth cellHeight pre 0 cursor0)
    as (os & cs & c & HL & Hi & Hinv); cbn; try lia; try assumption.
  exists os, cs, c. split; [exact HL|]. split; [cbn in Hi; lia|]. split; [exact Hinv|].
  rewrite layoutLoop_app, HL. reflexivity.
Qed.

Lemma Layout_cursor_invariant_witness :
  let g := {| Cols := [1; 1; 1; 1; 1]; TotalCols := 2; vertical := false; adapt := false |} in
  let o := plainObject true in
  exists objects' calls c,
    layoutLoop (hostWithPadding 0) g zero zero 0 [o; plainObject false; o; o] cursor0
    = Some (objects', calls, c) /\
    i c = 3 /\ col c = 1 /\ row c = 1.
Proof.
  intros g o.
  destruct (proj1 (Layout_cursor_invariant (hostWithPadding 0) g
              [o; plainObject false; o; o; o] zero zero
              eq_refl eq_refl
              ltac:(repeat constructor; discriminate)
              ltac:(cbn; lia)
              ltac:(discriminate))
              [o; plainObject false; o; o] o [] eq_refl eq_refl)
    as (os & cs & c & HL & Hi & [Hc Hr] & _).
  exists os, cs, c. split; [exact HL|].
  rewrite Hc, Hr, Hi. cbn. auto.
Defined.

(** ** Hiding a child against leaving it out *)

Lemma nth_error_removeAt {A : Type} (l : list A) : forall k j,
  nth_error (removeAt k l) j
  = if (j <? k)%nat then nth_error l j else nth_error l (S j).
Proof.
  induction l as [|x rest IH]; intros k j.
  - destruct k, j; cbn;
      repeat match goal with |- context [if ?b then _ else _] => destruct b end;
      reflexivity.
  - destruct k as [|k]; [destruct j; reflexivity|].
    destruct j as [|j]; [reflexivity|].
    cbn [removeAt nth_error]. rewrite IH.
    change (S j <? S k)%nat with (j <? k)%nat. reflexivity.
Qed.

Section HideOrOmit.
Variable tk : Host.
Variable g : weightedGridLayout.
Variable k : nat.
Variables cellWidth cellHeight : float64.

Let g' := withoutWeight k g.

Lemma advance_withoutWeight (n : nat) : forall c,
  advance tk g' n c = advance tk g n c.
Proof.
  induction n as [|n IH]; intros c; [reflexivity|].
  cbn [advance]. change (advance1 tk g' c) with (advance1 tk g c).
  destruct (advance1 tk g c); cbn; auto.
Qed.

Lemma layoutChild_reindex (j j' : nat) child c :
  nth_error (Cols g') j' = nth_error (Cols g) j ->
  placed1 (layoutChild tk g' cellWidth cellHeight j' child c)
  = placed1 (layoutChild tk g cellWidth cellHeight j child c).
Proof.
  intros Hn. unfold layoutChild. rewrite Hn.
  destruct (CanvasObject.Visible child); cbn; [|reflexivity].
  destruct (nth_error (Cols g) j) as [span|]; cbn; [|reflexivity].
  change (horizontal tk g') with (horizontal tk g).
  rewrite advance_withoutWeight.
  destruct (horizontal tk g); cbn;
    destruct (advance tk g (Z.to_nat span) c); reflexivity.
Qed.

Lemma placed_cons (h : weightedGridLayout) idx child rest c :
  placed (layoutLoop tk h cellWidth cellHeight idx (child :: rest) c)
  = ('(child', c') <- placed1 (layoutChild tk h cellWidth cellHeight idx child c) ;;
     '(rest', c'') <- placed (layoutLoop tk h cellWidth cellHeight (S idx) rest c') ;;
     Some (child' :: rest', c'')).
Proof.
  cbn [layoutLoop].
  destruct (layoutChild tk h cellWidth cellHeight idx child c) as [[[ch1 cs1] c1]|];
    cbn; [|reflexivity].
  destruct (layoutLoop tk h cellWidth cellHeight (S idx) rest c1) as [[[r1 cs2] c2]|];
    reflexivity.
Qed.

(** Past the omitted weight, index [j] of the shortened weight list is
    index [S j] of the full one. *)
Lemma layoutLoop_shift (objects : list CanvasObject.t) : forall j c,
  (k <= j)%nat ->
  placed (layoutLoop tk g' cellWidth cellHeight j objects c)
  = placed (layoutLoop tk g cellWidth cellHeight (S j) objects c).
Proof.
  induction objects as [|child rest IH]; intros j c Hk; [reflexivity|].
  rewrite !placed_cons.
  rewrite (layoutChild_reindex (S j) j).
  - destruct (placed1 (layoutChild tk g cellWidth cellHeight (S j) child c)) as [[ch1 c1]|];
      cbn; [|reflexivity].
    rewrite IH by lia. reflexivity.
  - unfold g'; cbn [Cols withoutWeight]. rewrite nth_error_removeAt.
    destruct (Nat.ltb_spec j k); [lia|reflexivity].
Qed.

Lemma countLoop_shift (objects : list CanvasObject.t) : forall j n,
  (k <= j)%nat ->
  countLoop g' j objects n = countLoop g (S j) objects n.
Proof.
  induction objects as [|child rest IH]; intros j n Hk; [reflexivity|].
  cbn [countLoop]. unfold g' at 1; cbn [Cols withoutWeight].
  rewrite nth_error_removeAt.
  destruct (Nat.ltb_spec j k); [lia|].
  destruct (CanvasObject.Visible child); [|apply IH; lia].
  destruct (nth_error (Cols g) (S j)); cbn; [apply IH; lia|reflexivity].
Qed.

End HideOrOmit.

Section HideOrOmitLoops.
Variable tk : Host.
Variable g : weightedGridLayout.
Variables cellWidth cellHeight : float64.

Lemma layoutLoop_remove (objects : list CanvasObject.t) : forall j k c,
  placed (layoutLoop tk (withoutWeight (j + k) g) cellWidth cellHeight j
            (removeAt k objects) c)
  = ('(os, c') <- placed (layoutLoop tk g cellWidth cellHeight j (hideAt k objects) c) ;;
     Some (removeAt k os, c')).
Proof.
  induction objects as [|child rest IH]; intros j k c.
  - destruct k; reflexivity.
  - destruct k as [|k].
    + cbn [removeAt hideAt]. rewrite layoutLoop_shift by lia.
      rewrite placed_cons, layoutChild_invisible by reflexivity. cbn.
      destruct (placed (layoutLoop tk g cellWidth cellHeight (S j) rest c)) as [[os c']|];
        reflexivity.
    + cbn [removeAt hideAt]. rewrite !placed_cons.
      rewrite (layoutChild_reindex tk g (j + S k) cellWidth cellHeight j j).
      * destruct (placed1 (layoutChild tk g cellWidth cellHeight j child c)) as [[ch1 c1]|];
          cbn; [|reflexivity].
        replace (j + S k)%nat with (S j + k)%nat by lia. rewrite IH.
        destruct (placed (layoutLoop tk g cellWidth cellHeight (S j) (hideAt k rest) c1))
          as [[os c']|]; reflexivity.
      * cbn [Cols withoutWeight]. rewrite nth_error_removeAt.
        destruct (Nat.ltb_spec j (j + S k)); [reflexivity|lia].
Qed.

Lemma countLoop_remove (objects : list CanvasObject.t) : forall j k n,
  countLoop (withoutWeight (j + k) g) j (removeAt k objects) n
  = countLoop g j (hideAt k objects) n.
Proof.
  induction objects as [|child rest IH]; intros j k n.
  - destruct k; reflexivity.
  - destruct k as [|k].
    + cbn [removeAt hideAt]. rewrite countLoop_shift by lia. reflexivity.
    + cbn [removeAt hideAt countLoop Cols withoutWeight]. rewrite nth_error_removeAt.
      destruct (Nat.ltb_spec j (j + S k)); [|lia].
      replace (j + S k)%nat with (S j + k)%nat by lia.
      destruct (CanvasObject.Visible child); [|exact (IH (S j) k n)].
      destruct (nth_error (Cols g) j) as [w|]; cbn; [exact (IH (S j) k _)|reflexivity].
Qed.

End HideOrOmitLoops.

(** C3, as amended: hiding the child at index [k] and running [Layout]
    leaves every other child where running [Layout] without that child does,
    once the weight at index [k] is left out of the weight list as well (the
    total weight kept); one run faults exactly when the other does. *)
Theorem Layout_hide_is_omit_with_weight (tk : Host) (g : weightedGridLayout)
    (objects : list CanvasObject.t) (size : Size) (k : nat) :
  option_map fst (Layout tk (withoutWeight k g) (removeAt k objects) size)
  = option_map (fun r => removeAt k (fst r)) (Layout tk g (hideAt k objects) size).
Proof.
  unfold Layout, countRows.
  pose proof (countLoop_remove g objects 0 k 0) as Hc. cbn [Nat.add] in Hc. rewrite Hc.
  change (TotalCols (withoutWeight k g)) with (TotalCols g).
  destruct (countLoop g 0 (hideAt k objects) 0) as [count|]; cbn; [|reflexivity].
  set (rows := int_of_f64 _ _).
  change (cellSizes tk (withoutWeight k g) rows size) with (cellSizes tk g rows size).
  destruct (cellSizes tk g rows size) as [cw ch].
  pose proof (layoutLoop_remove tk g cw ch objects 0 k cursor0) as H.
  cbn [Nat.add] in H. unfold placed in H.
  destruct (layoutLoop tk (withoutWeight k g) cw ch 0 (removeAt k objects) cursor0)
    as [[[o1 cs1] c1]|];
    destruct (layoutLoop tk g cw ch 0 (hideAt k objects) cursor0) as [[[o2 cs2] c2]|];
    cbn in *; congruence.
Qed.

(** C3, as stated, fails: with the layout unchanged, the children after the
    omitted one take the weights of their new indices. *)
Lemma Layout_hide_differs_from_omit :
  let tk := hostWithPadding 0 in
  let g := NewWeightedGridLayoutWithColumns [1; 1; 2] in
  let objects := [plainObject true; plainObject true; plainObject true] in
  let size := size_of_ints 400 100 in
  option_map fst (Layout tk g (removeAt 0 objects) size)
  <> option_map (fun r => removeAt 0 (fst r)) (Layout tk g (hideAt 0 objects) size).
Proof. vm_compute. discriminate. Qed.

(** ** The minimum size *)

Lemma minSizeLoop_fold (g : weightedGridLayout) (objects : list CanvasObject.t) :
  forall idx acc,
  minSizeLoop g idx objects acc
  = (vs <- visibleWithWeights (Cols g) idx objects ;;
     Some (fold_left Size_Max
             (map (fun v => perUnitHeight (CanvasObject.MinSize (fst v)) (snd v)) vs) acc)).
Proof.
  induction objects as [|child rest IH]; intros idx acc; [reflexivity|].
  cbn [minSizeLoop visibleWithWeights].
  destruct (CanvasObject.Visible child); cbn; [|apply IH].
  destruct (nth_error (Cols g) idx) as [w|]; cbn; [|reflexivity].
  rewrite IH.
  destruct (visibleWithWeights (Cols g) (S idx) rest) as [vs|]; reflexivity.
Qed.

(** C5, as amended: [MinSize] divides the minimum height of each visible
    child by the child's weight, in horizontal and in vertical mode alike,
    takes the per-axis maximum over the visible children, multiplies the
    per-unit width by the total weight and the per-unit height by the row
    count (transposed in vertical mode) and adds the padding times
    [max (TotalCols - 1) 0] and [max (rows - 1) 0] on the respective axes;
    it faults when a visible child has no weight. *)
Theorem MinSize_closed_form (tk : Host) (g : weightedGridLayout)
    (objects : list CanvasObject.t) :
  MinSize tk g objects = minSizeBy perUnitHeight tk g objects.
Proof.
  unfold MinSize, minSizeBy.
  destruct (countRows tk g objects) as [rows|]; cbn; [|reflexivity].
  rewrite minSizeLoop_fold.
  destruct (visibleWithWeights (Cols g) 0 objects) as [vs|]; cbn; [|reflexivity].
  destruct (horizontal tk g); reflexivity.
Qed.

(** In horizontal mode the divided dimension is the one the orientation
    names. *)
Lemma MinSize_horizontal (tk : Host) (g : weightedGridLayout)
    (objects : list CanvasObject.t) :
  horizontal tk g = true ->
  MinSize tk g objects = minSizeBy (perUnitByOrientation (horizontal tk g)) tk g objects.
Proof.
  intros H. unfold MinSize, minSizeBy. rewrite H.
  destruct (countRows tk g objects) as [rows|]; cbn; [|reflexivity].
  rewrite minSizeLoop_fold.
  destruct (visibleWithWeights (Cols g) 0 objects) as [vs|]; reflexivity.
Qed.

(** C5, as stated, fails in vertical mode: one visible child of weight 2
    with minimum size 10x20 gives 10x20, where dividing the width would give
    5x40. *)
Lemma MinSize_vertical_divides_height :
  let tk := hostWithPadding 0 in
  let g := NewWeightedGridLayoutWithRows [2] in
  let child :=
    {| CanvasObject.Visible := true; CanvasObject.MinSize := size_of_ints 10 20;
       CanvasObject.Position := NewPos zero zero;
       CanvasObject.Size := NewSize zero zero |} in
  MinSize tk g [child] = Some (size_of_ints 10 20) /\
  minSizeBy (perUnitByOrientation (horizontal tk g)) tk g [child] = Some (size_of_ints 5 40) /\
  MinSize tk g [child] <> minSizeBy (perUnitByOrientation (horizontal tk g)) tk g [child].
Proof. vm_compute. repeat split; discriminate. Qed.

(** ** The row count *)

Lemma maxInt_digits (t : Z) : 0 < t <= GoInt.maxInt -> Zdigits2 t <= 63.
Proof.
  intros H. apply Zdigits2_le. unfold GoInt.maxInt in H. lia.
Qed.

Lemma f64_of_int_finite (t : Z) :
  0 < t <= GoInt.maxInt ->
  exists m e, f64_of_int t = S754_finite false m e /\
              Zdigits2 (Zpos m) = prec64 /\ -52 <= e <= 11.
Proof.
  intros H. pose proof (maxInt_digits t H) as Hd.
  pose proof (Zdigits2_pos t ltac:(lia)) as Hp.
  destruct (of_int_finite prec64 emax64 eq_refl eq_refl t ltac:(lia))
    as (m & e & Hf & Hm & He); [unfold emax64; lia|].
  exists m, e. unfold prec64 in He. auto with zarith.
Qed.

Lemma f32_of_int_finite (t : Z) :
  0 < t <= GoInt.maxInt ->
  exists m e, f32_of_int t = S754_finite false m e.
Proof.
  intros H. pose proof (maxInt_digits t H) as Hd.
  destruct (of_int_finite prec32 emax32 eq_refl eq_refl t ltac:(lia))
    as (m & e & Hf & _); [unfold emax32; lia|].
  eauto.
Qed.

(** The quotient of two integers [0 < c <= t], taken in [float64] and
    rounded up, is one. *)
Lemma ceil_quotient_pos (indef c t : Z) :
  0 < c <= t -> t <= GoInt.maxInt ->
  int_of_f64 indef (Ceil (div64 (f64_of_int c) (f64_of_int t))) = 1.
Proof.
  intros Hc Ht.
  pose proof (maxInt_digits t ltac:(lia)) as Hd.
  pose proof (of_int_mono prec64 emax64 eq_refl eq_refl c t Hc ltac:(unfold emax64; lia))
    as Hmono.
  destruct (f64_of_int_finite c ltac:(lia)) as (mx & ex & Hx & Hdx & Hex).
  destruct (f64_of_int_finite t ltac:(lia)) as (my & ey & Hy & Hdy & Hey).
  unfold f64_of_int in Hx, Hy. rewrite Hx, Hy in Hmono.
  unfold div64, f64_of_int. rewrite Hx, Hy.
  destruct (SFdiv_le_one prec64 emax64 eq_refl eq_refl mx my ex ey Hdx Hdy Hmono)
    as (m & e & -> & He & Hm); [unfold emin, emax64, prec64; lia|].
  unfold Ceil. destruct (Z.leb_spec 0 e) as [|_]; [lia|].
  cbn [cond_Zopp].
  assert (Hz : - (- Zpos m / 2 ^ (- e)) = 1).
  { assert (H2 : 0 < 2 ^ (- e)) by (apply Z.pow_pos_nonneg; lia).
    assert (- Zpos m / 2 ^ (- e) = -1); [|lia].
    symmetry. apply (Z.div_unique _ _ _ (2 ^ (- e) - Zpos m)); lia. }
  rewrite Hz. reflexivity.
Qed.

Lemma ceil_quotient_zero (indef t : Z) :
  0 < t <= GoInt.maxInt ->
  int_of_f64 indef (Ceil (div64 (f64_of_int 0) (f64_of_int t))) = 0.
Proof.
  intros Ht. destruct (f64_of_int_finite t Ht) as (m & e & -> & _). reflexivity.
Qed.

Lemma ceilDiv_unit (c t : Z) :
  0 <= c <= t -> 0 < t -> ceilDiv c t = if c =? 0 then 0 else 1.
Proof.
  intros Hc Ht. unfold ceilDiv. destruct (Z.eqb_spec c 0) as [->|Hne].
  - reflexivity.
  - assert (- c / t = -1); [|lia].
    symmetry. apply (Z.div_unique _ _ _ (t - c)); lia.
Qed.

Lemma weightSum_skipn (cols : list Z) : forall idx,
  weightSum (skipn idx cols) = nth idx cols 0 + weightSum (skipn (S idx) cols).
Proof.
  induction cols as [|w rest IH]; intros idx.
  - destruct idx; reflexivity.
  - destruct idx as [|idx]; [reflexivity|]. cbn [skipn nth]. apply IH.
Qed.

Lemma weightSum_nonneg (cols : list Z) :
  Forall (fun w => 0 <= w) cols -> 0 <= weightSum cols.
Proof. induction 1; unfold weightSum in *; cbn; lia. Qed.

Lemma visibleWeight_le_sum (cols : list Z) (objects : list CanvasObject.t) : forall idx,
  Forall (fun w => 0 <= w) cols ->
  visibleWeight cols idx objects <= weightSum (skipn idx cols).
Proof.
  induction objects as [|child rest IH]; intros idx Hc.
  - cbn. apply weightSum_nonneg.
    rewrite <- (firstn_skipn idx cols) in Hc. apply Forall_app in Hc. apply Hc.
  - cbn [visibleWeight]. rewrite weightSum_skipn. specialize (IH (S idx) Hc).
    destruct (CanvasObject.Visible child); [lia|].
    destruct (nth_in_or_default idx cols 0) as [Hin|E]; [|lia].
    rewrite Forall_forall in Hc. specialize (Hc _ Hin). lia.
Qed.

Lemma sum_weightSum (cols : list Z) :
  Forall (fun w => 0 <= w) cols ->
  weightSum cols <= GoInt.maxInt ->
  sum cols = weightSum cols.
Proof.
  intros Hc Hb. unfold sum.
  assert (G : forall acc, 0 <= acc -> acc + weightSum cols <= GoInt.maxInt ->
            fold_left (fun res col => GoInt.add res col) cols acc = acc + weightSum cols).
  { clear Hb. induction Hc as [|w rest Hw Hrest IH]; intros acc H0 Hb.
    - cbn. unfold weightSum. cbn. lia.
    - pose proof (weightSum_nonneg rest Hrest).
      assert (Hm : GoInt.maxInt = 9223372036854775807) by reflexivity.
      change (weightSum (w :: rest)) with (w + weightSum rest) in *.
      cbn [fold_left]. unfold GoInt.add at 2.
      rewrite wrap_small by (unfold GoInt.minInt; lia).
      rewrite IH; lia. }
  rewrite G; lia.
Qed.

Lemma countLoop_visibleWeight (g : weightedGridLayout) (objects : list CanvasObject.t) :
  forall idx count,
  Forall (fun w => 0 <= w) (Cols g) ->
  (idx + length objects <= length (Cols g))%nat ->
  0 <= count ->
  count + visibleWeight (Cols g) idx objects <= GoInt.maxInt ->
  countLoop g idx objects count = Some (count + visibleWeight (Cols g) idx objects).
Proof.
  induction objects as [|child rest IH]; intros idx count Hc Hlen H0 Hb; cbn in *.
  - f_equal. lia.
  - assert (Hm : GoInt.maxInt = 9223372036854775807) by reflexivity.
    pose proof (visibleWeight_nonneg (Cols g) rest (S idx) Hc) as Hrest.
    destruct (CanvasObject.Visible child).
    + destruct (nth_error (Cols g) idx) as [w|] eqn:Hw;
        [|apply nth_error_None in Hw; lia].
      rewrite (nth_error_nth _ _ 0 Hw) in *. cbn.
      assert (Hw0 : 0 <= w).
      { rewrite Forall_forall in Hc. apply Hc. eapply nth_error_In; eauto. }
      unfold GoInt.add. rewrite wrap_small by (unfold GoInt.minInt; lia).
      rewrite IH by (assumption || lia). f_equal. lia.
    + rewrite IH by (assumption || lia). f_equal.
Qed.

(** C4: for a layout whose total is the sum of its weights (as every
    constructor makes it), with weights that are not negative, a positive
    total that does not overflow and one weight per child, [countRows]
    returns the sum of the weights of the visible children divided by the
    total weight and rounded up; [visibleWeight] counts nothing for an
    invisible child. *)
Theorem countRows_is_ceiling (tk : Host) (g : weightedGridLayout)
    (objects : list CanvasObject.t) :
  TotalCols g = sum (Cols g) ->
  Forall (fun w => 0 <= w) (Cols g) ->
  0 < weightSum (Cols g) <= GoInt.maxInt ->
  length objects = length (Cols g) ->
  countRows tk g objects
  = Some (ceilDiv (visibleWeight (Cols g) 0 objects) (TotalCols g)).
Proof.
  intros Ht Hc Hs Hlen.
  rewrite sum_weightSum in Ht by (assumption || lia).
  pose proof (visibleWeight_le_sum (Cols g) objects 0 Hc) as Hle. cbn [skipn] in Hle.
  pose proof (visibleWeight_nonneg (Cols g) objects 0 Hc) as H0.
  unfold countRows.
  rewrite (countLoop_visibleWeight g objects 0 0) by (assumption || lia).
  cbn [bind]. rewrite Z.add_0_l, Ht. f_equal.
  rewrite ceilDiv_unit by lia.
  destruct (Z.eqb_spec (visibleWeight (Cols g) 0 objects) 0) as [->|Hne].
  - apply ceil_quotient_zero. lia.
  - apply ceil_quotient_pos; lia.
Qed.

Lemma countRows_is_ceiling_witness :
  let g := NewWeightedGridLayoutWithColumns [1; 1; 2] in
  let objects := [plainObject true; plainObject false; plainObject true] in
  visibleWeight (Cols g) 0 objects = 3 /\
  countRows (hostWithPadding 4) g objects = Some (ceilDiv 3 4).
Proof.
  intros g objects. split; [reflexivity|].
  apply (countRows_is_ceiling (hostWithPadding 4) g objects).
  - reflexivity.
  - repeat constructor; discriminate.
  - cbn. lia.
  - reflexivity.
Defined.

(** ** No visible child *)

Section NoVisibleChild.
Variable tk : Host.
Variable g : weightedGridLayout.

Lemma countLoop_invisible (objects : list CanvasObject.t) :
  Forall (fun o => CanvasObject.Visible o = false) objects ->
  forall idx count, countLoop g idx objects count = Some count.
Proof.
  induction 1 as [|child rest Hv _ IH]; intros idx count; cbn; [reflexivity|].
  rewrite Hv. apply IH.
Qed.

Lemma minSizeLoop_invisible (objects : list CanvasObject.t) :
  Forall (fun o => CanvasObject.Visible o = false) objects ->
  forall idx acc, minSizeLoop g idx objects acc = Some acc.
Proof.
  induction 1 as [|child rest Hv _ IH]; intros idx acc; cbn; [reflexivity|].
  rewrite Hv. apply IH.
Qed.

Lemma layoutLoop_invisible cw ch (objects : list CanvasObject.t) :
  Forall (fun o => CanvasObject.Visible o = false) objects ->
  forall idx c, layoutLoop tk g cw ch idx objects c = Some (objects, [], c).
Proof.
  induction 1 as [|child rest Hv _ IH]; intros idx c; cbn [layoutLoop];
    [reflexivity|].
  rewrite layoutChild_invisible by assumption. cbn. rewrite IH. reflexivity.
Qed.

End NoVisibleChild.

Lemma div64_zero_not_finite (x : float64) : isFinite (div64 x (f64_of_int 0)) = false.
Proof. destruct x as [s|s| |s m e]; try reflexivity; destruct s; reflexivity. Qed.

Lemma binary_round_aux_sign (prec emax m e : Z) (l : location) :
  binary_round_aux prec emax false m e l <> S754_zero true.
Proof.
  unfold binary_round_aux.
  destruct (shr_fexp prec emax m e l) as [mrs' e'].
  destruct (shr_fexp prec emax _ e' loc_Exact) as [mrs'' e''].
  destruct (shr_m mrs'') as [|p|p]; try discriminate.
  destruct (e'' <=? emax - prec); discriminate.
Qed.

Lemma add32_zero_l (r : float32) : r <> S754_zero true -> add32 zero r = r.
Proof. destruct r as [[|]|s| |s m e]; intros H; try reflexivity. congruence. Qed.

(** Padding times a count that is zero or positive, added to a zero content
    size. *)
Lemma padding_times_count (p x : float32) :
  isPadding p ->
  (x = zero \/ exists m e, x = S754_finite false m e) ->
  add32 zero (mul32 p x) = mul32 p x.
Proof.
  intros Hp Hx. apply add32_zero_l.
  destruct Hp as [->|(mp & ep & ->)]; destruct Hx as [->|(mx & ex & ->)];
    try discriminate.
  apply binary_round_aux_sign.
Qed.

Lemma Max_count_zero (t : Z) :
  0 <= t <= GoInt.maxInt ->
  Max (f32_of_int t) zero = f32_of_int t /\
  (f32_of_int t = zero \/ exists m e, f32_of_int t = S754_finite false m e).
Proof.
  intros Ht. destruct (Z.eq_dec t 0) as [->|Hne].
  - split; [reflexivity|left; reflexivity].
  - destruct (f32_of_int_finite t ltac:(lia)) as (m & e & ->).
    split; [reflexivity|right; eauto].
Qed.

(** C2, as amended: with a positive total weight and no visible child,
    [countRows] returns 0; [MinSize] returns the padding times
    [TotalCols - 1] along the wrapping axis and 0 along the flow axis, which
    is the empty size only when the total weight is 1 or the padding is zero;
    [Layout] returns without a call and leaves every child as it was;
    neither faults.  [Layout] does divide by the zero row count, in floating
    point: the cell size along the flow axis is an infinity or NaN, which is
    no fault and is not used. *)
Theorem no_visible_child (tk : Host) (g : weightedGridLayout)
    (objects : list CanvasObject.t) (size : Size) :
  0 < TotalCols g <= GoInt.maxInt ->
  isPadding (Padding tk) ->
  Forall (fun o => CanvasObject.Visible o = false) objects ->
  countRows tk g objects = Some 0 /\
  MinSize tk g objects
  = Some (let pad := mul32 (Padding tk) (f32_of_int (TotalCols g - 1)) in
          if horizontal tk g then NewSize pad zero else NewSize zero pad) /\
  Layout tk g objects size = Some (objects, []) /\
  isFinite (if horizontal tk g then snd (cellSizes tk g 0 size)
            else fst (cellSizes tk g 0 size)) = false.
Proof.
  intros Ht Hp Hv.
  assert (Hrows : countRows tk g objects = Some 0).
  { unfold countRows. rewrite countLoop_invisible by assumption. cbn [bind].
    f_equal. apply ceil_quotient_zero. assumption. }
  split; [exact Hrows|]. split; [|split].
  - unfold MinSize. rewrite Hrows, minSizeLoop_invisible by assumption. cbn [bind].
    assert (Hm : GoInt.maxInt = 9223372036854775807) by reflexivity.
    unfold GoInt.sub. rewrite (wrap_small (TotalCols g - 1)) by (unfold GoInt.minInt; lia).
    destruct (Max_count_zero (TotalCols g - 1) ltac:(lia)) as [-> Hx].
    destruct (f32_of_int_finite (TotalCols g) Ht) as (mt & et & Hft).
    assert (H0 : mul32 zero (f32_of_int (TotalCols g)) = zero) by (rewrite Hft; reflexivity).
    assert (Hpz : add32 zero (mul32 (Padding tk) zero) = zero).
    { destruct Hp as [->|(mp & ep & ->)]; reflexivity. }
    pose proof (padding_times_count _ _ Hp Hx) as Hpx.
    destruct (horizontal tk g); unfold Size_Add; cbn [Width Height];
      rewrite H0;
      change (mul32 zero (f32_of_int 0)) with zero;
      change (Max (f32_of_int (GoInt.wrap (0 - 1))) zero) with zero;
      rewrite Hpz, Hpx; reflexivity.
  - unfold Layout. rewrite Hrows. cbn [bind].
    destruct (cellSizes tk g 0 size) as [cw ch].
    rewrite layoutLoop_invisible by assumption. reflexivity.
  - unfold cellSizes. destruct (horizontal tk g); cbn [negb fst snd];
      apply div64_zero_not_finite.
Qed.

Lemma no_visible_child_witness :
  let tk := hostWithPadding 4 in
  let g := NewWeightedGridLayoutWithColumns [1; 1; 2] in
  let objects := [plainObject false; plainObject false; plainObject false] in
  countRows tk g objects = Some 0 /\
  MinSize tk g objects = Some (size_of_ints 12 0) /\
  Layout tk g objects (size_of_ints 400 100) = Some (objects, []).
Proof.
  intros tk g objects.
  destruct (no_visible_child tk g objects (size_of_ints 400 100))
    as (H1 & H2 & H3 & _).
  - cbn. lia.
  - right. vm_compute. eauto.
  - repeat constructor.
  - split; [exact H1|]. split; [|exact H3].
    rewrite H2. vm_compute. reflexivity.
Defined.

(** C2, as stated, fails: with total weight 4, padding 4 and no visible
    child, [MinSize] is 12 wide, not empty. *)
Lemma MinSize_not_empty_without_visible_child :
  let tk := hostWithPadding 4 in
  let g := NewWeightedGridLayoutWithColumns [1; 1; 2] in
  let objects := [plainObject false; plainObject false; plainObject false] in
  Forall (fun o => CanvasObject.Visible o = false) objects /\
  0 < TotalCols g /\
  MinSize tk g objects = Some (size_of_ints 12 0) /\
  MinSize tk g objects <> Some (NewSize zero zero).
Proof.
  cbn zeta. split; [repeat constructor|]. split; [reflexivity|].
  split; [vm_compute; reflexivity|vm_compute; discriminate].
Qed.

(** * Further properties of the layout *)

(** ** A pass as a plan over the visibility flags *)

Lemma layoutChild_visible tk g cw ch idx child c :
  CanvasObject.Visible child = true ->
  layoutChild tk g cw ch idx child c
  = (span <- nth_error (Cols g) idx ;;
     c' <- advance tk g (Z.to_nat span) c ;;
     let pos := cellPos tk cw ch c in
     let size := cellSize tk g cw ch span c in
     Some (CanvasObject.Resize (CanvasObject.Move child pos) size,
           [CallMove idx pos; CallResize idx size], c')).
Proof.
  intros Hv. unfold layoutChild, cellPos, cellSize. rewrite Hv. cbn [negb].
  destruct (nth_error (Cols g) idx) as [span|]; cbn [bind]; [|reflexivity].
  destruct (horizontal tk g); reflexivity.
Qed.

Lemma layoutLoop_plan tk g cw ch (objects : list CanvasObject.t) : forall idx c,
  layoutLoop tk g cw ch idx objects c
  = ('(plan, c') <- layoutPlan tk g cw ch idx (map CanvasObject.Visible objects) c ;;
     Some (applyPlan objects plan, planCalls idx plan, c')).
Proof.
  induction objects as [|child rest IH]; intros idx c; [reflexivity|].
  cbn [layoutLoop map layoutPlan].
  destruct (CanvasObject.Visible child) eqn:Hv.
  - rewrite layoutChild_visible by assumption.
    destruct (nth_error (Cols g) idx) as [span|]; cbn [bind]; [|reflexivity].
    destruct (advance tk g (Z.to_nat span) c) as [c1|]; cbn [bind]; [|reflexivity].
    rewrite IH.
    destruct (layoutPlan tk g cw ch (S idx) (map CanvasObject.Visible rest) c1)
      as [[plan c']|]; reflexivity.
  - rewrite layoutChild_invisible by assumption. cbn [bind]. rewrite IH.
    destruct (layoutPlan tk g cw ch (S idx) (map CanvasObject.Visible rest) c)
      as [[plan c']|]; reflexivity.
Qed.

Lemma layoutPlan_length tk g cw ch (visible : list bool) : forall idx c plan c',
  layoutPlan tk g cw ch idx visible c = Some (plan, c') ->
  map (fun p : placement => match p with Some _ => true | None => false end) plan = visible.
Proof.
  induction visible as [|v rest IH]; intros idx c plan c' H; cbn in H.
  - injection H as <- _. reflexivity.
  - destruct v.
    + destruct (nth_error (Cols g) idx) as [span|]; cbn in H; [|discriminate].
      destruct (advance tk g (Z.to_nat span) c) as [c1|]; cbn in H; [|discriminate].
      destruct (layoutPlan tk g cw ch (S idx) rest c1) as [[plan1 c2]|] eqn:Hr;
        cbn in H; [|discriminate].
      injection H as <- _. cbn. f_equal. eauto.
    + destruct (layoutPlan tk g cw ch (S idx) rest c) as [[plan1 c2]|] eqn:Hr;
        cbn in H; [|discriminate].
      injection H as <- _. cbn. f_equal. eauto.
Qed.

Lemma applyPlan_fields (objects : list CanvasObject.t) : forall plan,
  fits objects plan ->
  length (applyPlan objects plan) = length objects /\
  map CanvasObject.Visible (applyPlan objects plan) = map CanvasObject.Visible objects /\
  map CanvasObject.MinSize (applyPlan objects plan) = map CanvasObject.MinSize objects.
Proof.
  unfold fits. induction objects as [|o rest IH]; intros [|p plan] H; cbn in *;
    try discriminate; auto.
  injection H as Hp H. destruct (IH plan H) as (Hl & Hv & Hm).
  repeat split; [congruence| |]; f_equal; try assumption;
    destruct p as [[pos size]|]; reflexivity.
Qed.

Lemma applyPlan_idem (objects : list CanvasObject.t) : forall plan,
  fits objects plan ->
  applyPlan (applyPlan objects plan) plan = applyPlan objects plan.
Proof.
  unfold fits. induction objects as [|o rest IH]; intros [|p plan] H; cbn in *;
    try discriminate; auto.
  injection H as Hp H. f_equal; [|auto].
  destruct p as [[pos size]|]; reflexivity.
Qed.

Lemma planCalls_callsOf (objects : list CanvasObject.t) : forall plan idx,
  fits objects plan ->
  planCalls idx plan = callsOf idx (applyPlan objects plan).
Proof.
  unfold fits. induction objects as [|o rest IH]; intros [|p plan] idx H; cbn in *;
    try discriminate; auto.
  injection H as Hp H.
  destruct p as [[pos size]|]; cbn; rewrite <- Hp; cbn; [do 2 f_equal|]; auto.
Qed.

Lemma callsOf_length (objects : list CanvasObject.t) : forall idx,
  length (callsOf idx objects) = (2 * visibleCount objects)%nat.
Proof.
  unfold visibleCount.
  induction objects as [|o rest IH]; intros idx; cbn [callsOf filter]; [reflexivity|].
  rewrite length_app, IH. destruct (CanvasObject.Visible o); cbn [length]; lia.
Qed.

Lemma countLoop_visible_only (g : weightedGridLayout) (objects objects' : list CanvasObject.t) :
  map CanvasObject.Visible objects' = map CanvasObject.Visible objects ->
  forall idx count, countLoop g idx objects' count = countLoop g idx objects count.
Proof.
  revert objects'. induction objects as [|o rest IH]; intros [|o' rest'] H idx count;
    cbn in *; try discriminate; auto.
  injection H as Hv H. rewrite Hv.
  destruct (CanvasObject.Visible o); [|auto].
  destruct (nth_error (Cols g) idx); cbn; auto.
Qed.


(** What [Layout] returns, through the plan. *)
Lemma Layout_plan tk g objects size objects' calls :
  Layout tk g objects size = Some (objects', calls) ->
  exists rows plan c',
    countRows tk g objects = Some rows /\
    layoutPlan tk g (fst (cellSizes tk g rows size)) (snd (cellSizes tk g rows size)) 0
      (map CanvasObject.Visible objects) cursor0 = Some (plan, c') /\
    fits objects plan /\
    objects' = applyPlan objects plan /\
    calls = planCalls 0 plan.
Proof.
  unfold Layout. intros H.
  destruct (countRows tk g objects) as [rows|]; cbn [bind] in H; [|discriminate].
  destruct (cellSizes tk g rows size) as [cw ch] eqn:Hcs.
  rewrite layoutLoop_plan in H.
  destruct (layoutPlan tk g cw ch 0 (map CanvasObject.Visible objects) cursor0)
    as [[plan c']|] eqn:Hp; cbn [bind] in H; [|discriminate].
  injection H as <- <-.
  exists rows, plan, c'. rewrite Hcs. cbn [fst snd].
  split; [reflexivity|]. split; [exact Hp|].
  split; [exact (layoutPlan_length _ _ _ _ _ _ _ _ _ Hp)|]. split; reflexivity.
Qed.

Lemma visibleCount_flags (objects objects' : list CanvasObject.t) :
  map CanvasObject.Visible objects' = map CanvasObject.Visible objects ->
  visibleCount objects' = visibleCount objects.
Proof.
  unfold visibleCount. revert objects'.
  induction objects as [|o rest IH]; intros [|o' rest'] H; cbn in *; try discriminate; auto.
  injection H as Hv H. rewrite Hv. destruct (CanvasObject.Visible o); cbn; auto.
Qed.

Lemma countRows_visible_only tk g (objects objects' : list CanvasObject.t) :
  map CanvasObject.Visible objects' = map CanvasObject.Visible objects ->
  countRows tk g objects' = countRows tk g objects.
Proof.
  intros H. unfold countRows. rewrite (countLoop_visible_only g objects objects' H).
  reflexivity.
Qed.

(** ** What a pass keeps, and what it leaves behind *)



(** X2: the calls of a pass are, for each visible child in the order of the
    slice, one [Move] followed by one [Resize], with the position and the size
    the child is left with: twice as many calls as there are visible
    children. *)
Theorem Layout_calls_in_order (tk : Host) (g : weightedGridLayout)
    (objects objects' : list CanvasObject.t) (size : Size) (calls : list Call) :
  Layout tk g objects size = Some (objects', calls) ->
  calls = callsOf 0 objects' /\
  length calls = (2 * visibleCount objects)%nat.
Proof.
  intros H. destruct (Layout_plan _ _ _ _ _ _ H) as (rows & plan & c' & _ & _ & Hf & -> & ->).
  assert (Hc : planCalls 0 plan = callsOf 0 (applyPlan objects plan))
    by (apply planCalls_callsOf; exact Hf).
  split; [exact Hc|].
  rewrite Hc, callsOf_length. f_equal.
  apply visibleCount_flags. apply applyPlan_fields. exact Hf.
Qed.

Lemma Layout_calls_in_order_witness :
  let tk := hostWithPadding 4 in
  let g := NewWeightedGridLayoutWithColumns [1; 1; 2] in
  let objects := [plainObject true; plainObject false; plainObject true] in
  exists objects' calls,
    Layout tk g objects (size_of_ints 400 100) = Some (objects', calls) /\
    calls = callsOf 0 objects' /\ length calls = 4%nat.
Proof.
  intros tk g objects.
  destruct (Layout tk g objects (size_of_ints 400 100)) as [[objects' calls]|] eqn:HL;
    [|vm_compute in HL; discriminate HL].
  exists objects', calls. split; [reflexivity|].
  exact (Layout_calls_in_order tk g objects objects' (size_of_ints 400 100) calls HL).
Defined.

(** X3: a pass reads nothing of a child but its visibility: two child lists
    with the same visibility flags get the same calls, and a pass that returns
    on one returns on the other. *)
Theorem Layout_reads_visibility_only (tk : Host) (g : weightedGridLayout)
    (objects others objects' : list CanvasObject.t) (size : Size) (calls : list Call) :
  map CanvasObject.Visible others = map CanvasObject.Visible objects ->
  Layout tk g objects size = Some (objects', calls) ->
  exists others',
    Layout tk g others size = Some (others', calls) /\
    map CanvasObject.Position (filter CanvasObject.Visible others')
    = map CanvasObject.Position (filter CanvasObject.Visible objects') /\
    map CanvasObject.Size (filter CanvasObject.Visible others')
    = map CanvasObject.Size (filter CanvasObject.Visible objects').
Proof.
  intros Hv H.
  destruct (Layout_plan _ _ _ _ _ _ H) as (rows & plan & c' & Hr & Hp & Hf & -> & ->).
  exists (applyPlan others plan).
  assert (Hf' : fits others plan) by (unfold fits in *; congruence).
  split.
  - unfold Layout. rewrite (countRows_visible_only tk g objects others Hv), Hr. cbn [bind].
    destruct (cellSizes tk g rows size) as [cw ch]. cbn [fst snd] in Hp.
    rewrite layoutLoop_plan, Hv, Hp. reflexivity.
  - clear Hp Hr H. revert others plan Hv Hf Hf'. unfold fits.
    induction objects as [|o rest IH]; intros [|o' rest'] [|p plan] Hv Hf Hf';
      cbn in *; try discriminate; auto.
    injection Hv as Hv1 Hv. injection Hf as Hf1 Hf. injection Hf' as Hf1' Hf'.
    destruct (IH rest' plan Hv Hf Hf') as [IHp IHs].
    destruct p as [[pos sz]|]; cbn in *.
    + rewrite <- Hf1, <- Hf1'. cbn. split; f_equal; assumption.
    + rewrite <- Hf1, <- Hf1'. split; assumption.
Qed.

Lemma Layout_reads_visibility_only_witness :
  let tk := hostWithPadding 4 in
  let g := NewWeightedGridLayoutWithColumns [1; 1; 2] in
  let objects := [plainObject true; plainObject false; plainObject true] in
  let others := [placeAt (plainObject true) 7 7 7 7; plainObject false;
                 placeAt (plainObject true) 9 9 9 9] in
  exists objects' others' calls,
    Layout tk g objects (size_of_ints 400 100) = Some (objects', calls) /\
    Layout tk g others (size_of_ints 400 100) = Some (others', calls).
Proof.
  intros tk g objects others.
  destruct (Layout tk g objects (size_of_ints 400 100)) as [[objects' calls]|] eqn:HL;
    [|vm_compute in HL; discriminate HL].
  destruct (Layout_reads_visibility_only tk g objects others objects'
              (size_of_ints 400 100) calls eq_refl HL) as (others' & HL' & _).
  exists objects', others', calls. split; [reflexivity|exact HL'].
Defined.

(** X4: [Layout] is idempotent: run again on the children it returned, with
    the same size, it returns the same children and makes the same calls. *)
Theorem Layout_idempotent (tk : Host) (g : weightedGridLayout)
    (objects objects' : list CanvasObject.t) (size : Size) (calls : list Call) :
  Layout tk g objects size = Some (objects', calls) ->
  Layout tk g objects' size = Some (objects', calls).
Proof.
  intros H.
  destruct (Layout_plan _ _ _ _ _ _ H) as (rows & plan & c' & Hr & Hp & Hf & -> & ->).
  destruct (applyPlan_fields objects plan Hf) as (_ & Hv & _).
  unfold Layout. rewrite (countRows_visible_only tk g objects _ Hv), Hr. cbn [bind].
  destruct (cellSizes tk g rows size) as [cw ch]. cbn [fst snd] in Hp.
  rewrite layoutLoop_plan, Hv, Hp. cbn [bind].
  rewrite applyPlan_idem by exact Hf. reflexivity.
Qed.

Lemma Layout_idempotent_witness :
  let tk := hostWithPadding 4 in
  let g := NewWeightedGridLayoutWithRows [1; 2; 1] in
  let objects := [plainObject true; plainObject false; plainObject true] in
  exists objects' calls,
    Layout tk g objects (size_of_ints 100 300) = Some (objects', calls) /\
    Layout tk g objects' (size_of_ints 100 300) = Some (objects', calls).
Proof.
  intros tk g objects.
  destruct (Layout tk g objects (size_of_ints 100 300)) as [[objects' calls]|] eqn:HL;
    [|vm_compute in HL; discriminate HL].
  exists objects', calls. split; [reflexivity|].
  exact (Layout_idempotent tk g objects objects' (size_of_ints 100 300) calls HL).
Defined.



(** ** When a pass faults *)

Lemma weightedFrom_tail g k child rest :
  weightedFrom g k (child :: rest) -> weightedFrom g (S k) rest.
Proof.
  intros H j ch Hn Hv. specialize (H (S j) ch Hn Hv). lia.
Qed.

Lemma countLoop_returns (g : weightedGridLayout) (objects : list CanvasObject.t) :
  forall k count,
  (exists r, countLoop g k objects count = Some r) <-> weightedFrom g k objects.
Proof.
  induction objects as [|child rest IH]; intros k count.
  - split; [intros _ [|j] ch Hn; discriminate Hn|intros _; cbn; eauto].
  - cbn [countLoop]. destruct (CanvasObject.Visible child) eqn:Hv.
    + destruct (nth_error (Cols g) k) as [w|] eqn:Hw; cbn [bind].
      * rewrite IH. split.
        -- intros H [|j] ch Hn Hvc.
           ++ apply nth_error_Some. rewrite Nat.add_0_r. congruence.
           ++ specialize (H j ch Hn Hvc). lia.
        -- apply weightedFrom_tail.
      * split; [intros [r Hr]; discriminate Hr|].
        intros H. specialize (H 0%nat child eq_refl Hv).
        apply nth_error_None in Hw. lia.
    + rewrite IH. split.
      * intros H [|j] ch Hn Hvc.
        -- injection Hn as <-. congruence.
        -- specialize (H j ch Hn Hvc). lia.
      * apply weightedFrom_tail.
Qed.

Lemma minSizeLoop_returns (g : weightedGridLayout) (objects : list CanvasObject.t) :
  forall k acc,
  (exists r, minSizeLoop g k objects acc = Some r) <-> weightedFrom g k objects.
Proof.
  induction objects as [|child rest IH]; intros k acc.
  - split; [intros _ [|j] ch Hn; discriminate Hn|intros _; cbn; eauto].
  - cbn [minSizeLoop]. destruct (CanvasObject.Visible child) eqn:Hv; cbn [negb].
    + destruct (nth_error (Cols g) k) as [w|] eqn:Hw; cbn [bind].
      * rewrite IH. split.
        -- intros H [|j] ch Hn Hvc.
           ++ apply nth_error_Some. rewrite Nat.add_0_r. congruence.
           ++ specialize (H j ch Hn Hvc). lia.
        -- apply weightedFrom_tail.
      * split; [intros [r Hr]; discriminate Hr|].
        intros H. specialize (H 0%nat child eq_refl Hv).
        apply nth_error_None in Hw. lia.
    + rewrite IH. split.
      * intros H [|j] ch Hn Hvc.
        -- injection Hn as <-. congruence.
        -- specialize (H j ch Hn Hvc). lia.
      * apply weightedFrom_tail.
Qed.

Lemma weightedFrom_0 g objects : weightedFrom g 0 objects <-> weighted g objects.
Proof. unfold weightedFrom, weighted. split; intros H j ch Hn Hv; apply (H j ch Hn Hv). Qed.

(** X6: [countRows] and [MinSize] return exactly when every visible child
    has a weight; a visible child whose index is past the end of the weight
    list makes both panic. *)
Theorem countRows_MinSize_return_iff_weighted (tk : Host) (g : weightedGridLayout)
    (objects : list CanvasObject.t) :
  ((exists rows, countRows tk g objects = Some rows) <-> weighted g objects) /\
  ((exists size, MinSize tk g objects = Some size) <-> weighted g objects).
Proof.
  assert (Hc : (exists rows, countRows tk g objects = Some rows) <-> weighted g objects).
  { rewrite <- weightedFrom_0, <- (countLoop_returns g objects 0 0). unfold countRows.
    destruct (countLoop g 0 objects 0) as [count|]; cbn [bind].
    - split; eauto.
    - split; intros [r Hr]; discriminate Hr. }
  split; [exact Hc|].
  split.
  - intros [s Hs]. apply Hc. unfold MinSize in Hs.
    destruct (countRows tk g objects) as [rows|]; [eauto|discriminate Hs].
  - intros Hw. destruct (proj2 Hc Hw) as [rows Hr].
    apply weightedFrom_0 in Hw.
    destruct (proj2 (minSizeLoop_returns g objects 0 (NewSize zero zero)) Hw) as [m Hm].
    unfold MinSize. rewrite Hr, Hm. cbn [bind]. destruct (horizontal tk g); eauto.
Qed.

Lemma advance_total tk g (n : nat) : forall c,
  TotalCols g <> 0 -> exists c', advance tk g n c = Some c'.
Proof.
  induction n as [|n IH]; intros c Ht; cbn [advance]; [eauto|].
  unfold advance1, GoInt.rem. destruct (Z.eqb_spec (TotalCols g) 0) as [|_]; [contradiction|].
  cbn [bind].
  destruct (horizontal tk g);
    destruct (Z.rem (GoInt.add (i c) 1) (TotalCols g) =? 0); cbn [bind]; apply IH; assumption.
Qed.

Lemma advance_zero_total tk g (n : nat) c :
  TotalCols g = 0 -> n <> 0%nat -> advance tk g n c = None.
Proof.
  intros Ht Hn. destruct n as [|n]; [contradiction|]. cbn [advance].
  unfold advance1, GoInt.rem. rewrite Ht. reflexivity.
Qed.

Lemma layoutLoop_returns tk g cw ch (objects : list CanvasObject.t) : forall k c,
  (exists r, layoutLoop tk g cw ch k objects c = Some r) <-> layoutableFrom g k objects.
Proof.
  induction objects as [|child rest IH]; intros k c.
  - split; [intros _ [|j] ch' Hn; discriminate Hn|intros _; cbn; eauto].
  - cbn [layoutLoop]. destruct (CanvasObject.Visible child) eqn:Hv.
    + rewrite layoutChild_visible by assumption.
      destruct (nth_error (Cols g) k) as [w|] eqn:Hw; cbn [bind].
      * destruct (advance tk g (Z.to_nat w) c) as [c1|] eqn:Ha; cbn [bind].
        -- assert (Hw' : TotalCols g <> 0 \/ w <= 0).
           { destruct (Z.eq_dec (TotalCols g) 0) as [E|]; [|auto]. right.
             destruct (Z.le_gt_cases w 0) as [|Hpos]; [assumption|exfalso].
             rewrite advance_zero_total in Ha by (assumption || lia). discriminate Ha. }
           split.
           ++ intros [r Hr] [|j] ch' Hn Hvc.
              ** rewrite Nat.add_0_r. eauto.
              ** assert (Hex : exists r', layoutLoop tk g cw ch (S k) rest c1 = Some r').
                 { destruct (layoutLoop tk g cw ch (S k) rest c1); [eauto|discriminate Hr]. }
                 apply IH in Hex. specialize (Hex j ch' Hn Hvc).
                 replace (k + S j)%nat with (S k + j)%nat by lia. exact Hex.
           ++ intros H.
              assert (Hex : exists r', layoutLoop tk g cw ch (S k) rest c1 = Some r').
              { apply IH. intros j ch' Hn Hvc. specialize (H (S j) ch' Hn Hvc).
                replace (k + S j)%nat with (S k + j)%nat in H by lia. exact H. }
              destruct Hex as [[[os cs] c2] ->]. cbn. eauto.
        -- split; [intros [r Hr]; discriminate Hr|].
           intros H. destruct (H 0%nat child eq_refl Hv) as (w' & Hw'' & Hcase).
           rewrite Nat.add_0_r, Hw in Hw''. injection Hw'' as <-.
           destruct Hcase as [Ht|Hle].
           ++ destruct (advance_total tk g (Z.to_nat w) c Ht) as [c' Hc']. congruence.
           ++ replace (Z.to_nat w) with 0%nat in Ha by lia. discriminate Ha.
      * split; [intros [r Hr]; discriminate Hr|].
        intros H. destruct (H 0%nat child eq_refl Hv) as (w' & Hw'' & _).
        rewrite Nat.add_0_r in Hw''. congruence.
    + rewrite layoutChild_invisible by assumption. cbn [bind]. split.
      * intros [r Hr] [|j] ch' Hn Hvc.
        -- injection Hn as <-. congruence.
        -- assert (Hex : exists r', layoutLoop tk g cw ch (S k) rest c = Some r').
           { destruct (layoutLoop tk g cw ch (S k) rest c); [eauto|discriminate Hr]. }
           apply IH in Hex. specialize (Hex j ch' Hn Hvc).
           replace (k + S j)%nat with (S k + j)%nat by lia. exact Hex.
      * intros H.
        assert (Hex : exists r', layoutLoop tk g cw ch (S k) rest c = Some r').
        { apply IH. intros j ch' Hn Hvc. specialize (H (S j) ch' Hn Hvc).
          replace (k + S j)%nat with (S k + j)%nat in H by lia. exact H. }
        destruct Hex as [[[os cs] c2] ->]. cbn. eauto.
Qed.

Lemma layoutableFrom_0 g objects :
  layoutableFrom g 0 objects
  <-> weighted g objects /\ (TotalCols g <> 0 \/ noPositiveWeight g objects).
Proof.
  unfold layoutableFrom, weighted, noPositiveWeight. cbn [Nat.add]. split.
  - intros H. split.
    + intros idx ch Hn Hv. destruct (H idx ch Hn Hv) as (w & Hw & _).
      apply nth_error_Some. congruence.
    + destruct (Z.eq_dec (TotalCols g) 0) as [E|]; [right|left; assumption].
      intros idx ch w Hn Hv Hw. destruct (H idx ch Hn Hv) as (w' & Hw' & [Ht|Hle]);
        [contradiction|congruence].
  - intros [Hw Hcase] idx ch Hn Hv.
    specialize (Hw idx ch Hn Hv).
    destruct (nth_error (Cols g) idx) as [w|] eqn:Ew; [|apply nth_error_None in Ew; lia].
    exists w. split; [reflexivity|]. destruct Hcase as [Ht|Hnp]; [left; assumption|].
    right. exact (Hnp idx ch w Hn Hv Ew).
Qed.

(** X7: [Layout] returns exactly when every visible child has a weight and
    either the total weight is not zero or no visible child has a positive
    weight: a missing weight is an index out of range, and with a zero total
    weight the first unit of a visible child is a modulo by zero. *)
Theorem Layout_returns_iff (tk : Host) (g : weightedGridLayout)
    (objects : list CanvasObject.t) (size : Size) :
  (exists r, Layout tk g objects size = Some r)
  <-> weighted g objects /\ (TotalCols g <> 0 \/ noPositiveWeight g objects).
Proof.
  rewrite <- layoutableFrom_0. unfold Layout. split.
  - intros [r Hr].
    destruct (countRows tk g objects) as [rows|]; cbn [bind] in Hr; [|discriminate Hr].
    destruct (cellSizes tk g rows size) as [cw ch].
    apply (layoutLoop_returns tk g cw ch objects 0 cursor0).
    destruct (layoutLoop tk g cw ch 0 objects cursor0); [eauto|discriminate Hr].
  - intros H.
    assert (Hw : weightedFrom g 0 objects).
    { intros j ch Hn Hv. destruct (H j ch Hn Hv) as (w & Hw & _).
      apply nth_error_Some. congruence. }
    destruct (proj2 (countLoop_returns g objects 0 0) Hw) as [count Hc].
    unfold countRows. rewrite Hc. cbn [bind].
    destruct (cellSizes tk g _ size) as [cw ch].
    destruct (proj2 (layoutLoop_returns tk g cw ch objects 0 cursor0) H) as [[[os cs] c'] ->].
    cbn. eauto.
Qed.



(** ** Rows against columns *)

Section Transpose.
Variable tk : Host.
Variables gH gV : weightedGridLayout.
Hypothesis HH : horizontal tk gH = true.
Hypothesis HV : horizontal tk gV = false.
Hypothesis HCols : Cols gV = Cols gH.
Hypothesis HTotal : TotalCols gV = TotalCols gH.

Lemma advance1_swap (c : cursor) :
  advance1 tk gV (swapCursor c) = option_map swapCursor (advance1 tk gH c).
Proof.
  unfold advance1. rewrite HH, HV, HTotal. cbn [swapCursor i row col].
  destruct (GoInt.rem (GoInt.add (i c) 1) (TotalCols gH)) as [r|]; cbn [bind]; [|reflexivity].
  destruct (r =? 0); reflexivity.
Qed.

Lemma advance_swap (n : nat) : forall c,
  advance tk gV n (swapCursor c) = option_map swapCursor (advance tk gH n c).
Proof.
  induction n as [|n IH]; intros c; cbn [advance]; [reflexivity|].
  rewrite advance1_swap. destruct (advance1 tk gH c) as [c1|]; cbn; [apply IH|reflexivity].
Qed.

Lemma layoutLoop_transpose cw ch (objects : list CanvasObject.t) : forall idx c,
  layoutLoop tk gV ch cw idx objects (swapCursor c)
  = option_map transposeLoop (layoutLoop tk gH cw ch idx objects c).
Proof.
  induction objects as [|child rest IH]; intros idx c; [reflexivity|].
  cbn [layoutLoop]. destruct (CanvasObject.Visible child) eqn:Hv.
  - rewrite !layoutChild_visible by assumption. rewrite HCols.
    destruct (nth_error (Cols gH) idx) as [span|]; cbn [bind]; [|reflexivity].
    rewrite advance_swap.
    destruct (advance tk gH (Z.to_nat span) c) as [c1|]; cbn [bind option_map]; [|reflexivity].
    rewrite IH.
    destruct (layoutLoop tk gH cw ch (S idx) rest c1) as [[[os cs] c2]|];
      cbn [bind option_map]; [|reflexivity].
    unfold transposeLoop; cbn [fst snd map]. f_equal. f_equal. f_equal.
    + unfold transposeVisible, CanvasObject.Resize, CanvasObject.Move, cellSize, cellPos.
      rewrite HH, HV.
      cbn [CanvasObject.Visible CanvasObject.MinSize CanvasObject.Position CanvasObject.Size].
      rewrite Hv. reflexivity.
    + unfold cellSize, cellPos. rewrite HH, HV. reflexivity.
  - rewrite !layoutChild_invisible by assumption. cbn [bind]. rewrite IH.
    destruct (layoutLoop tk gH cw ch (S idx) rest c) as [[[os cs] c2]|];
      cbn [bind option_map]; [|reflexivity].
    unfold transposeLoop; cbn [fst snd map]. f_equal. f_equal. f_equal.
    unfold transposeVisible. rewrite Hv. reflexivity.
Qed.

Lemma countLoop_same_Cols (objects : list CanvasObject.t) : forall idx count,
  countLoop gV idx objects count = countLoop gH idx objects count.
Proof.
  induction objects as [|child rest IH]; intros idx count; [reflexivity|].
  cbn [countLoop]. rewrite HCols.
  destruct (CanvasObject.Visible child); [|apply IH].
  destruct (nth_error (Cols gH) idx); cbn [bind]; [apply IH|reflexivity].
Qed.

Lemma Layout_transpose_gen (objects : list CanvasObject.t) (size : Size) :
  Layout tk gV objects (swapSize size)
  = option_map transposePass (Layout tk gH objects size).
Proof.
  unfold Layout, countRows. rewrite countLoop_same_Cols, HTotal.
  destruct (countLoop gH 0 objects 0) as [count|]; cbn [bind]; [|reflexivity].
  set (rows := int_of_f64 _ _).
  assert (Hcs : cellSizes tk gV rows (swapSize size)
                = (snd (cellSizes tk gH rows size), fst (cellSizes tk gH rows size))).
  { unfold cellSizes. rewrite HH, HV, HTotal. reflexivity. }
  rewrite Hcs. destruct (cellSizes tk gH rows size) as [cw ch]. cbn [fst snd].
  change cursor0 with (swapCursor cursor0) at 1. rewrite layoutLoop_transpose.
  destruct (layoutLoop tk gH cw ch 0 objects cursor0) as [[[os cs] c']|]; reflexivity.
Qed.

End Transpose.

(** X9: a layout in vertical mode is the transpose of the same weights laid
    out in columns: on the container size with width and height exchanged it
    makes the same calls with x and y, width and height exchanged, leaves the
    visible children at the exchanged positions and sizes, and faults exactly
    when the column layout does. *)
Theorem Layout_vertical_is_transpose (tk : Host) (g : weightedGridLayout)
    (objects : list CanvasObject.t) (size : Size) :
  horizontal tk g = false ->
  Layout tk g objects (swapSize size)
  = option_map transposePass (Layout tk (asColumns g) objects size).
Proof.
  intros HV. apply Layout_transpose_gen; try reflexivity. exact HV.
Qed.

Lemma Layout_vertical_is_transpose_witness :
  let tk := hostWithPadding 4 in
  let objects := [plainObject true; plainObject false; plainObject true] in
  Layout tk (NewWeightedGridLayoutWithRows [1; 1; 2]) objects (size_of_ints 100 400)
  = option_map transposePass
      (Layout tk (NewWeightedGridLayoutWithColumns [1; 1; 2]) objects (size_of_ints 400 100)).
Proof.
  intros tk objects.
  exact (Layout_vertical_is_transpose tk (NewWeightedGridLayoutWithRows [1; 1; 2])
           objects (size_of_ints 400 100) eq_refl).
Defined.

(** X10: in vertical mode, with a positive total weight, weights that are
    not negative, a weight for every child and no overflow of the flat index:
    whenever a visible child is reached the loop has run without fault over
    the children before it, the flat index [i] is the sum of the weights of
    the visible ones among them, and the cursor is [row = i mod TotalCols]
    and [col = i / TotalCols]. *)
Theorem Layout_cursor_invariant_vertical (tk : Host) (g : weightedGridLayout)
    (objects : list CanvasObject.t) (cellWidth cellHeight : float64) :
  horizontal tk g = false ->
  0 < TotalCols g ->
  Forall (fun w => 0 <= w) (Cols g) ->
  (length objects <= length (Cols g))%nat ->
  visibleWeight (Cols g) 0 objects <= GoInt.maxInt ->
  forall pre child post,
    objects = pre ++ child :: post ->
    CanvasObject.Visible child = true ->
    exists objects' calls c,
      layoutLoop tk g cellWidth cellHeight 0 pre cursor0 = Some (objects', calls, c) /\
      i c = visibleWeight (Cols g) 0 pre /\
      cursorInvVertical (TotalCols g) c.
Proof.
  intros HV Ht Hw Hlen Hb pre child post -> Hv.
  rewrite visibleWeight_app in Hb. rewrite length_app in Hlen. cbn in Hlen.
  pose proof (visibleWeight_nonneg (Cols g) (child :: post) (0 + length pre) Hw) as Hpost.
  assert (Hm : GoInt.maxInt = 9223372036854775807) by reflexivity.
  assert (Hinv0 : cursorInv (TotalCols g) cursor0).
  { unfold cursorInv, cursor0; cbn [i col row].
    rewrite Z.mod_0_l, Z.div_0_l by lia. auto. }
  destruct (layoutLoop_inv tk (asColumns g) eq_refl Ht Hw cellHeight cellWidth pre 0 cursor0)
    as (os & cs & c & HL & Hi & [Hc Hr]); cbn; try lia; try assumption.
  pose proof (layoutLoop_transpose tk (asColumns g) g eq_refl HV eq_refl eq_refl
                cellHeight cellWidth pre 0 cursor0) as HT.
  change (swapCursor cursor0) with cursor0 in HT. rewrite HL in HT. cbn in HT.
  do 3 eexists. split; [exact HT|].
  cbn [i cursor0 asColumns Cols TotalCols] in Hi, Hc, Hr.
  unfold cursorInvVertical; cbn [swapCursor i row col fst snd].
  split; [lia|]. split; assumption.
Qed.

Lemma Layout_cursor_invariant_vertical_witness :
  let g := {| Cols := [1; 1; 1; 1; 1]; TotalCols := 2; vertical := true; adapt := false |} in
  let o := plainObject true in
  exists objects' calls c,
    layoutLoop (hostWithPadding 0) g zero zero 0 [o; plainObject false; o; o] cursor0
    = Some (objects', calls, c) /\
    i c = 3 /\ row c = 1 /\ col c = 1.
Proof.
  intros g o.
  destruct (Layout_cursor_invariant_vertical (hostWithPadding 0) g
              [o; plainObject false; o; o; o] zero zero
              eq_refl eq_refl
              ltac:(repeat constructor; discriminate)
              ltac:(cbn; lia)
              ltac:(discriminate)
              [o; plainObject false; o; o] o [] eq_refl eq_refl)
    as (os & cs & c & HL & Hi & [Hr Hc]).
  exists os, cs, c. split; [exact HL|].
  rewrite Hc, Hr, Hi. cbn. auto.
Defined.

(** ** The adaptive layout *)

Section SameGeometry.
Variable tk : Host.
Variables g1 g2 : weightedGridLayout.
Hypothesis HCols : Cols g1 = Cols g2.
Hypothesis HTotal : TotalCols g1 = TotalCols g2.
Hypothesis HHor : horizontal tk g1 = horizontal tk g2.

Lemma advance_same (n : nat) : forall c, advance tk g1 n c = advance tk g2 n c.
Proof.
  induction n as [|n IH]; intros c; cbn [advance]; [reflexivity|].
  unfold advance1. rewrite HTotal, HHor.
  destruct (GoInt.rem (GoInt.add (i c) 1) (TotalCols g2)) as [r|]; cbn [bind]; [|reflexivity].
  destruct (horizontal tk g2); destruct (r =? 0); cbn [bind]; apply IH.
Qed.

Lemma layoutLoop_same cw ch (objects : list CanvasObject.t) : forall idx c,
  layoutLoop tk g1 cw ch idx objects c = layoutLoop tk g2 cw ch idx objects c.
Proof.
  induction objects as [|child rest IH]; intros idx c; [reflexivity|].
  cbn [layoutLoop].
  assert (Hc : layoutChild tk g1 cw ch idx child c = layoutChild tk g2 cw ch idx child c).
  { unfold layoutChild. rewrite HCols, HHor.
    destruct (CanvasObject.Visible child); cbn [negb]; [|reflexivity].
    destruct (nth_error (Cols g2) idx) as [span|]; cbn [bind]; [|reflexivity].
    rewrite advance_same. reflexivity. }
  rewrite Hc. destruct (layoutChild tk g2 cw ch idx child c) as [[[ch1 cs1] c1]|];
    cbn [bind]; [|reflexivity].
  rewrite IH. reflexivity.
Qed.

Lemma minSizeLoop_same (objects : list CanvasObject.t) : forall idx acc,
  minSizeLoop g1 idx objects acc = minSizeLoop g2 idx objects acc.
Proof.
  induction objects as [|child rest IH]; intros idx acc; [reflexivity|].
  cbn [minSizeLoop]. rewrite HCols.
  destruct (CanvasObject.Visible child); cbn [negb]; [|apply IH].
  destruct (nth_error (Cols g2) idx); cbn [bind]; [apply IH|reflexivity].
Qed.

Lemma passes_same (objects : list CanvasObject.t) (size : Size) :
  countRows tk g1 objects = countRows tk g2 objects /\
  Layout tk g1 objects size = Layout tk g2 objects size /\
  MinSize tk g1 objects = MinSize tk g2 objects.
Proof.
  assert (Hc : countRows tk g1 objects = countRows tk g2 objects).
  { unfold countRows. rewrite (countLoop_same_Cols g2 g1 HCols), HTotal. reflexivity. }
  split; [exact Hc|]. split.
  - unfold Layout. rewrite Hc.
    destruct (countRows tk g2 objects) as [rows|]; cbn [bind]; [|reflexivity].
    assert (Hcs : cellSizes tk g1 rows size = cellSizes tk g2 rows size).
    { unfold cellSizes. rewrite HTotal, HHor. reflexivity. }
    rewrite Hcs. destruct (cellSizes tk g2 rows size) as [cw ch].
    rewrite layoutLoop_same. reflexivity.
  - unfold MinSize. rewrite Hc, minSizeLoop_same, HTotal, HHor. reflexivity.
Qed.

End SameGeometry.

(** X11: the adaptive layout does what the column layout of the same
    weights does while the device is held horizontally and what the row
    layout does otherwise: the same row count, the same pass, the same
    minimum size. *)
Theorem adaptive_follows_device (tk : Host) (rowcols : list Z)
    (objects : list CanvasObject.t) (size : Size) :
  let g := if deviceHorizontal tk
           then NewWeightedGridLayoutWithColumns rowcols
           else NewWeightedGridLayoutWithRows rowcols in
  countRows tk (NewAdaptiveWeightedGridLayout rowcols) objects = countRows tk g objects /\
  Layout tk (NewAdaptiveWeightedGridLayout rowcols) objects size = Layout tk g objects size /\
  MinSize tk (NewAdaptiveWeightedGridLayout rowcols) objects = MinSize tk g objects.
Proof.
  cbn zeta. apply passes_same; unfold horizontal; destruct (deviceHorizontal tk); reflexivity.
Qed.

(** ** The sum of the weights *)

Lemma wrap_wrap_add (a b : Z) : GoInt.wrap (GoInt.wrap a + b) = GoInt.wrap (a + b).
Proof.
  unfold GoInt.wrap. f_equal.
  replace ((a + 2 ^ 63) mod 2 ^ 64 - 2 ^ 63 + b + 2 ^ 63)
    with ((a + 2 ^ 63) mod 2 ^ 64 + b) by lia.
  rewrite Zplus_mod_idemp_l. f_equal. lia.
Qed.

Lemma wrap_range (z : Z) : GoInt.minInt <= GoInt.wrap z <= GoInt.maxInt.
Proof.
  unfold GoInt.wrap, GoInt.minInt, GoInt.maxInt.
  pose proof (Z.mod_pos_bound (z + 2 ^ 63) (2 ^ 64) ltac:(lia)). lia.
Qed.

(** X12: [sum] is the sum of the weights reduced to the 64-bit range of
    [int], so the total weight every constructor stores is the exact sum of
    the weights whenever that sum is representable, and wraps around
    otherwise. *)
Theorem sum_is_wrapped_sum (cols : list Z) :
  sum cols = GoInt.wrap (weightSum cols) /\
  GoInt.inRange (sum cols) /\
  TotalCols (NewWeightedGridLayout cols) = GoInt.wrap (weightSum cols) /\
  TotalCols (NewWeightedGridLayoutWithColumns cols) = GoInt.wrap (weightSum cols) /\
  TotalCols (NewWeightedGridLayoutWithRows cols) = GoInt.wrap (weightSum cols) /\
  TotalCols (NewAdaptiveWeightedGridLayout cols) = GoInt.wrap (weightSum cols).
Proof.
  assert (G : forall acc,
            fold_left (fun res col => GoInt.add res col) cols (GoInt.wrap acc)
            = GoInt.wrap (acc + weightSum cols)).
  { induction cols as [|w rest IH]; intros acc.
    - cbn. unfold weightSum. cbn. rewrite Z.add_0_r. reflexivity.
    - cbn [fold_left]. unfold GoInt.add at 2. rewrite wrap_wrap_add, IH.
      change (weightSum (w :: rest)) with (w + weightSum rest). f_equal. lia. }
  assert (Hs : sum cols = GoInt.wrap (weightSum cols)).
  { unfold sum. change 0 with (GoInt.wrap 0) at 1. rewrite G. reflexivity. }
  split; [exact Hs|]. split; [rewrite Hs; apply wrap_range|].
  repeat split; exact Hs.
Qed.

(** ** Where a child lands in horizontal mode *)

Lemma layoutLoop_length tk g cw ch (objects : list CanvasObject.t) : forall idx c os cs c',
  layoutLoop tk g cw ch idx objects c = Some (os, cs, c') -> length os = length objects.
Proof.
  intros idx c os cs c' H. rewrite layoutLoop_plan in H.
  destruct (layoutPlan tk g cw ch idx (map CanvasObject.Visible objects) c)
    as [[plan c1]|] eqn:Hp; cbn [bind] in H; [|discriminate H].
  injection H as <- _ _. apply applyPlan_fields.
  exact (layoutPlan_length _ _ _ _ _ _ _ _ _ Hp).
Qed.

Lemma sub_add_in_range (a b : Z) :
  GoInt.minInt <= a + b - 1 <= GoInt.maxInt ->
  GoInt.sub (GoInt.add a b) 1 = a + b - 1.
Proof.
  intros H. unfold GoInt.sub, GoInt.add.
  replace (GoInt.wrap (a + b) - 1) with (GoInt.wrap (a + b) + -1) by lia.
  rewrite wrap_wrap_add. replace (a + b + -1) with (a + b - 1) by lia.
  apply wrap_small. exact H.
Qed.

(** X13: in horizontal mode, with a positive total weight, weights that are
    not negative, a weight for every child and no overflow, [Layout] returns
    and leaves each visible child in the cell its predecessors determine:
    with [i] the sum of the weights of the visible children before it and [w]
    its own weight, its corner is the leading edge of column [i mod TotalCols]
    and of row [i / TotalCols], and it reaches to the trailing edge of column
    [i mod TotalCols + w - 1] and of its own row. *)
Theorem Layout_horizontal_cell (tk : Host) (g : weightedGridLayout)
    (objects : list CanvasObject.t) (size : Size)
    (pre : list CanvasObject.t) (child : CanvasObject.t) (post : list CanvasObject.t) :
  horizontal tk g = true ->
  0 < TotalCols g ->
  Forall (fun w => 0 <= w) (Cols g) ->
  (length objects <= length (Cols g))%nat ->
  visibleWeight (Cols g) 0 objects <= GoInt.maxInt ->
  objects = pre ++ child :: post ->
  CanvasObject.Visible child = true ->
  exists rows objects' calls,
    countRows tk g objects = Some rows /\
    Layout tk g objects size = Some (objects', calls) /\
    let cw := fst (cellSizes tk g rows size) in
    let ch := snd (cellSizes tk g rows size) in
    let i := visibleWeight (Cols g) 0 pre in
    let w := nth (length pre) (Cols g) 0 in
    let x1 := getLeading tk cw (i mod TotalCols g) in
    let y1 := getLeading tk ch (i / TotalCols g) in
    nth_error objects' (length pre)
    = Some (CanvasObject.Resize
              (CanvasObject.Move child (NewPos x1 y1))
              (NewSize (sub32 (getTrailing tk cw (i mod TotalCols g + w - 1)) x1)
                       (sub32 (getTrailing tk ch (i / TotalCols g)) y1))).
Proof.
  intros Hh Ht Hw Hlen Hb -> Hv.
  assert (Hm : GoInt.maxInt = 9223372036854775807) by reflexivity.
  assert (Hmin : GoInt.minInt = -9223372036854775808) by reflexivity.
  assert (Hweighted : weightedFrom g 0 (pre ++ child :: post)).
  { intros j ch' Hn _.
    assert (j < length (pre ++ child :: post))%nat by (apply nth_error_Some; congruence).
    lia. }
  destruct (proj2 (countLoop_returns g _ 0 0) Hweighted) as [count Hc].
  unfold Layout, countRows. rewrite Hc. cbn [bind].
  set (rows := int_of_f64 _ _). exists rows.
  destruct (cellSizes tk g rows size) as [cw ch] eqn:Hcs. cbn [fst snd].
  rewrite visibleWeight_app in Hb. rewrite length_app in Hlen. cbn [length] in Hlen.
  pose proof (visibleWeight_nonneg (Cols g) pre 0 Hw) as Hpre.
  pose proof (visibleWeight_nonneg (Cols g) post (S (0 + length pre)) Hw) as Hpost.
  cbn [visibleWeight] in Hb. rewrite Hv in Hb.
  assert (Hinv0 : cursorInv (TotalCols g) cursor0).
  { unfold cursorInv, cursor0; cbn [i col row].
    rewrite Z.mod_0_l, Z.div_0_l by lia. auto. }
  destruct (nth_error (Cols g) (length pre)) as [w|] eqn:Ew;
    [|apply nth_error_None in Ew; lia].
  cbn [Nat.add] in *. rewrite (nth_error_nth _ _ 0 Ew) in *.
  assert (Hw0 : 0 <= w).
  { rewrite Forall_forall in Hw. apply Hw. eapply nth_error_In; eauto. }
  destruct (layoutLoop_inv tk g Hh Ht Hw cw ch pre 0 cursor0)
    as (os & cs & c & HL & Hi & [Hcol Hrow]); cbn [i cursor0 Nat.add]; try lia;
    try assumption.
  cbn [i cursor0] in Hi. rewrite Z.add_0_l in Hi.
  destruct (advance_inv tk g Hh Ht (Z.to_nat w) c) as (c1 & Ha & Hi1 & Hinv1);
    try lia; [split; assumption|].
  destruct (layoutLoop_inv tk g Hh Ht Hw cw ch post (S (length pre)) c1)
    as (os2 & cs2 & c2 & HL2 & _); try lia; try assumption.
  rewrite layoutLoop_app, HL. cbn [bind Nat.add layoutLoop].
  rewrite layoutChild_visible, Ew by assumption. cbn [bind]. rewrite Ha. cbn [bind].
  rewrite HL2. cbn [bind].
  do 2 eexists. split; [reflexivity|]. split; [reflexivity|].
  rewrite nth_error_app2 by (rewrite (layoutLoop_length _ _ _ _ _ _ _ _ _ _ HL); lia).
  rewrite (layoutLoop_length _ _ _ _ _ _ _ _ _ _ HL), Nat.sub_diag. cbn [nth_error].
  unfold cellPos, cellSize. rewrite Hh, Hcol, Hrow, Hi.
  pose proof (Z.mod_pos_bound (visibleWeight (Cols g) 0 pre) (TotalCols g) Ht) as Hmb.
  assert (Hml : visibleWeight (Cols g) 0 pre mod TotalCols g <= visibleWeight (Cols g) 0 pre).
  { apply Z.mod_le; lia. }
  assert (Hq : 0 <= visibleWeight (Cols g) 0 pre / TotalCols g <= visibleWeight (Cols g) 0 pre).
  { split; [apply Z.div_pos; lia|]. apply Z.div_le_upper_bound; nia. }
  rewrite !sub_add_in_range by lia.
  replace (visibleWeight (Cols g) 0 pre / TotalCols g + 1 - 1)
    with (visibleWeight (Cols g) 0 pre / TotalCols g) by lia.
  reflexivity.
Qed.

Lemma Layout_horizontal_cell_witness :
  let tk := hostWithPadding 0 in
  let g := NewWeightedGridLayoutWithColumns [1; 1; 2] in
  let o := plainObject true in
  exists objects' calls,
    Layout tk g [o; plainObject false; o] (size_of_ints 400 100) = Some (objects', calls) /\
    nth_error objects' 2 = Some (placeAt o 100 0 200 100).
Proof.
  intros tk g o.
  destruct (Layout_horizontal_cell tk g [o; plainObject false; o] (size_of_ints 400 100)
              [o; plainObject false] o [] eq_refl eq_refl
              ltac:(repeat constructor; discriminate)
              ltac:(cbn; lia)
              ltac:(discriminate)
              eq_refl eq_refl)
    as (rows & objects' & calls & Hr & HL & Hcell).
  exists objects', calls. split; [exact HL|].
  vm_compute in Hr. injection Hr as <-.
  refine (eq_trans Hcell _). vm_compute. reflexivity.
Defined.

(** ** One line at most *)

Lemma visibleWeight_hideAt (cols : list Z) (objects : list CanvasObject.t) : forall idx k,
  Forall (fun w => 0 <= w) cols ->
  visibleWeight cols idx (hideAt k objects) <= visibleWeight cols idx objects.
Proof.
  induction objects as [|o rest IH]; intros idx k Hc.
  - destruct k; cbn; lia.
  - destruct k as [|k]; cbn [hideAt visibleWeight hide CanvasObject.Visible].
    + destruct (CanvasObject.Visible o); [|lia].
      destruct (nth_in_or_default idx cols 0) as [Hin|E]; [|lia].
      rewrite Forall_forall in Hc. specialize (Hc _ Hin). lia.
    + specialize (IH (S idx) k Hc). lia.
Qed.

Lemma length_hideAt (objects : list CanvasObject.t) : forall k,
  length (hideAt k objects) = length objects.
Proof.
  induction objects as [|o rest IH]; intros [|k]; cbn; auto.
Qed.

Lemma countRows_unit (tk : Host) (g : weightedGridLayout) (objects : list CanvasObject.t) :
  TotalCols g = sum (Cols g) ->
  Forall (fun w => 0 <= w) (Cols g) ->
  0 < weightSum (Cols g) <= GoInt.maxInt ->
  length objects = length (Cols g) ->
  countRows tk g objects
  = Some (if visibleWeight (Cols g) 0 objects =? 0 then 0 else 1).
Proof.
  intros Ht Hc Hs Hlen.
  rewrite sum_weightSum in Ht by (assumption || lia).
  pose proof (visibleWeight_le_sum (Cols g) objects 0 Hc) as Hle. cbn [skipn] in Hle.
  pose proof (visibleWeight_nonneg (Cols g) objects 0 Hc) as H0.
  unfold countRows.
  rewrite (countLoop_visibleWeight g objects 0 0) by (assumption || lia).
  cbn [bind]. rewrite Z.add_0_l, Ht. f_equal.
  destruct (Z.eqb_spec (visibleWeight (Cols g) 0 objects) 0) as [->|Hne].
  - apply ceil_quotient_zero. lia.
  - apply ceil_quotient_pos; lia.
Qed.

(** X14: a layout whose total is the sum of its weights (none negative, the
    sum positive and representable), handed one child per weight, never has
    more than one line: [countRows] is 0 when the visible children weigh
    nothing and 1 otherwise; and hiding a child never raises the row count. *)
Theorem countRows_one_line_and_monotone (tk : Host) (g : weightedGridLayout)
    (objects : list CanvasObject.t) :
  TotalCols g = sum (Cols g) ->
  Forall (fun w => 0 <= w) (Cols g) ->
  0 < weightSum (Cols g) <= GoInt.maxInt ->
  length objects = length (Cols g) ->
  exists rows,
    countRows tk g objects = Some rows /\
    rows = (if visibleWeight (Cols g) 0 objects =? 0 then 0 else 1) /\
    forall k, exists rows',
      countRows tk g (hideAt k objects) = Some rows' /\ 0 <= rows' <= rows.
Proof.
  intros Ht Hc Hs Hlen. eexists. split; [apply countRows_unit; assumption|].
  split; [reflexivity|]. intros k. eexists.
  split; [apply countRows_unit; try assumption; rewrite length_hideAt; assumption|].
  pose proof (visibleWeight_hideAt (Cols g) objects 0 k Hc) as Hle.
  pose proof (visibleWeight_nonneg (Cols g) (hideAt k objects) 0 Hc) as H0.
  destruct (Z.eqb_spec (visibleWeight (Cols g) 0 (hideAt k objects)) 0);
    destruct (Z.eqb_spec (visibleWeight (Cols g) 0 objects) 0); lia.
Qed.

Lemma countRows_one_line_and_monotone_witness :
  let tk := hostWithPadding 4 in
  let g := NewWeightedGridLayoutWithColumns [1; 1; 2] in
  let objects := [plainObject true; plainObject true; plainObject true] in
  countRows tk g objects = Some 1 /\
  countRows tk g (hideAt 1 objects) = Some 1.
Proof.
  intros tk g objects.
  destruct (countRows_one_line_and_monotone tk g objects eq_refl
              ltac:(repeat constructor; discriminate)
              ltac:(cbn; lia) eq_refl) as (rows & Hr & -> & Hk).
  split; [exact Hr|]. destruct (Hk 1%nat) as (rows' & Hr' & _).
  rewrite Hr'. vm_compute in Hr'. symmetry. exact Hr'.
Defined.

(** ** Hiding against omitting, for the sizes *)

Lemma minSizeLoop_shift (g : weightedGridLayout) (k : nat) (objects : list CanvasObject.t) :
  forall j acc,
  (k <= j)%nat ->
  minSizeLoop (withoutWeight k g) j objects acc = minSizeLoop g (S j) objects acc.
Proof.
  induction objects as [|child rest IH]; intros j acc Hk; [reflexivity|].
  cbn [minSizeLoop Cols withoutWeight]. rewrite nth_error_removeAt.
  destruct (Nat.ltb_spec j k); [lia|].
  destruct (CanvasObject.Visible child); cbn [negb]; [|apply IH; lia].
  destruct (nth_error (Cols g) (S j)); cbn [bind]; [apply IH; lia|reflexivity].
Qed.

Lemma minSizeLoop_remove (g : weightedGridLayout) (objects : list CanvasObject.t) :
  forall j k acc,
  minSizeLoop (withoutWeight (j + k) g) j (removeAt k objects) acc
  = minSizeLoop g j (hideAt k objects) acc.
Proof.
  induction objects as [|child rest IH]; intros j k acc.
  - destruct k; reflexivity.
  - destruct k as [|k].
    + cbn [removeAt hideAt minSizeLoop hide CanvasObject.Visible negb].
      apply minSizeLoop_shift. lia.
    + cbn [removeAt hideAt minSizeLoop Cols withoutWeight]. rewrite nth_error_removeAt.
      destruct (Nat.ltb_spec j (j + S k)); [|lia].
      replace (j + S k)%nat with (S j + k)%nat by lia.
      destruct (CanvasObject.Visible child); cbn [negb]; [|exact (IH (S j) k acc)].
      destruct (nth_error (Cols g) j) as [w|]; cbn [bind]; [exact (IH (S j) k _)|reflexivity].
Qed.

(** X15: for the row count and the minimum size, hiding the child at index
    [k] is the same as leaving it out together with its weight (the total
    weight kept): the hidden child's minimum size plays no part, and one
    computation faults exactly when the other does. *)
Theorem MinSize_hide_is_omit_with_weight (tk : Host) (g : weightedGridLayout)
    (objects : list CanvasObject.t) (k : nat) :
  countRows tk (withoutWeight k g) (removeAt k objects) = countRows tk g (hideAt k objects) /\
  MinSize tk (withoutWeight k g) (removeAt k objects) = MinSize tk g (hideAt k objects).
Proof.
  assert (Hc : countRows tk (withoutWeight k g) (removeAt k objects)
               = countRows tk g (hideAt k objects)).
  { unfold countRows. pose proof (countLoop_remove g objects 0 k 0) as H.
    cbn [Nat.add] in H. rewrite H. reflexivity. }
  split; [exact Hc|].
  unfold MinSize. rewrite Hc.
  pose proof (minSizeLoop_remove g objects 0 k (NewSize zero zero)) as H.
  cbn [Nat.add] in H. rewrite H. reflexivity.
Qed.

(** * Further properties of the button *)

Section ButtonEvents.
Import Widget Events.
Variable Color : Type.
Variable blendColor : Color -> Color -> Color.

Lemma handle_fields (e : Event) (w : World Color) :
  let b := button w in
  let b' := button (handle e w) in
  disabled b' = disabled b /\ Importance b' = Importance b /\
  ColorEnabled b' = ColorEnabled b /\ ColorDisabled b' = ColorDisabled b /\
  ColorFocused b' = ColorFocused b /\ ColorPrimary b' = ColorPrimary b /\
  ColorHover b' = ColorHover b.
Proof. destruct e; cbn; repeat split. Qed.

Lemma run_fields (events : list Event) : forall w : World Color,
  let b := button w in
  let b' := button (run events w) in
  disabled b' = disabled b /\ Importance b' = Importance b /\
  ColorEnabled b' = ColorEnabled b /\ ColorDisabled b' = ColorDisabled b /\
  ColorFocused b' = ColorFocused b /\ ColorPrimary b' = ColorPrimary b /\
  ColorHover b' = ColorHover b.
Proof.
  induction events as [|e rest IH]; intros w; cbn zeta; [repeat split|].
  unfold run. cbn [fold_left]. fold (run rest (handle e w)).
  destruct (IH (handle e w)) as (H1 & H2 & H3 & H4 & H5 & H6 & H7).
  destruct (handle_fields e w) as (G1 & G2 & G3 & G4 & G5 & G6 & G7).
  cbn zeta in *. repeat split; congruence.
Qed.

(** X16: the focus, pointer and text handlers never touch the disabled flag
    or the colours, so a disabled button keeps the colour [ColorDisabled]
    through any sequence of them. *)
Theorem disabled_colour_survives_events (events : list Event) (w : World Color) :
  Disabled (button w) = true ->
  Disabled (button (run events w)) = true /\
  buttonColor blendColor (button (run events w)) = ColorDisabled (button w).
Proof.
  intros Hd. destruct (run_fields events w) as (H1 & _ & _ & H4 & _). cbn zeta in *.
  unfold Disabled in *. split; [congruence|].
  unfold buttonColor, Disabled. rewrite H1, Hd. exact H4.
Qed.

(** X17: every handler but [MouseMoved] and [TypedRune] asks for exactly one
    refresh and nothing else: after a sequence of events the effects are the
    ones before, followed by one refresh for each event that is neither. *)
Theorem one_refresh_per_event (events : list Event) (w : World Color) :
  effects (run events w)
  = effects w ++ repeat WidgetRefresh (length (filter refreshes events)).
Proof.
  revert w. induction events as [|e rest IH]; intros w.
  - cbn. rewrite app_nil_r. reflexivity.
  - unfold run. cbn [fold_left]. fold (run rest (handle e w)). rewrite IH.
    destruct e; cbn [handle refreshes filter length repeat];
      unfold FocusGained, FocusLost, MouseIn, MouseOut, MouseMoved, TypedRune, SetText,
             Refresh, emit, onButton; cbn [effects];
      rewrite <- ?app_assoc; reflexivity.
Qed.

Lemma run_focused (events : list Event) : forall w : World Color,
  forallb (fun e => negb (isFocusLost e)) events = true ->
  focused (button w) = true ->
  focused (button (run events w)) = true.
Proof.
  induction events as [|e rest IH]; intros w Hall Hf; [exact Hf|].
  cbn [forallb] in Hall. apply andb_prop in Hall. destruct Hall as [He Hall].
  unfold run. cbn [fold_left]. fold (run rest (handle e w)).
  apply IH; [exact Hall|].
  destruct e; try discriminate He; cbn; try assumption; reflexivity.
Qed.

(** X18: focus outranks hover: while an enabled button holds the focus, no
    pointer event, text change or rune changes its colour, which stays the
    blend of [ColorEnabled] and [ColorFocused] until [FocusLost]. *)
Theorem focus_outranks_hover (events : list Event) (w : World Color) :
  Disabled (button w) = false ->
  focused (button w) = true ->
  forallb (fun e => negb (isFocusLost e)) events = true ->
  buttonColor blendColor (button (run events w))
  = blendColor (ColorEnabled (button w)) (ColorFocused (button w)).
Proof.
  intros Hd Hf Hall.
  destruct (run_fields events w) as (H1 & _ & H3 & _ & H5 & _). cbn zeta in *.
  pose proof (run_focused events w Hall Hf) as Hf'.
  unfold buttonColor, Disabled in *. rewrite H1, Hd, Hf', H3, H5. reflexivity.
Qed.

Variable KeySpace : String.string.
Variable onTapped : World Color -> World Color.

(** X19: a key press reaches the tap handler only for the space key on an
    enabled button: any other key, and any key on a disabled button, leaves
    the button and the effects as they were. *)
Theorem TypedKey_silent (name : String.string) (w : World Color) :
  name <> KeySpace \/ Disabled (button w) = true ->
  TypedKey KeySpace onTapped name w = w.
Proof.
  intros H. unfold TypedKey.
  destruct (String.eqb_spec name KeySpace) as [E|_]; [|reflexivity].
  destruct H as [Hne|Hd]; [contradiction|].
  unfold Tapped. rewrite Hd. reflexivity.
Qed.

End ButtonEvents.

Lemma disabled_colour_survives_events_witness :
  let w := {| Widget.button := sampleButton true false false; Widget.effects := [] |} in
  let events := [Events.EvMouseIn; Events.EvFocusGained; Events.EvMouseMoved] in
  Widget.Disabled (Widget.button (Events.run events w)) = true /\
  Widget.buttonColor Nat.add (Widget.button (Events.run events w)) = 2%nat.
Proof.
  intros w events.
  exact (disabled_colour_survives_events nat Nat.add events w eq_refl).
Defined.

Lemma focus_outranks_hover_witness :
  let w := {| Widget.button := sampleButton false true false; Widget.effects := [] |} in
  let events := [Events.EvMouseIn; Events.EvMouseMoved; Events.EvMouseOut] in
  Widget.buttonColor Nat.add (Widget.button (Events.run events w)) = 4%nat.
Proof.
  intros w events.
  exact (focus_outranks_hover nat Nat.add events w eq_refl eq_refl eq_refl).
Defined.

Lemma TypedKey_silent_witness :
  let w := {| Widget.button := sampleButton true false false; Widget.effects := [] |} in
  Events.TypedKey String.EmptyString (fun w' => w') String.EmptyString w = w.
Proof.
  intros w.
  apply (TypedKey_silent nat String.EmptyString (fun w' => w') String.EmptyString w).
  right. reflexivity.
Defined.

Section ButtonTap.
Import Widget.
Variable Color : Type.
Variable onTapped : World Color -> World Color.


End ButtonTap.

